(** * The AGENTS.md build and watch scripts of the skills repository

    A shallow embedding of [scripts/build-agents.cjs] and
    [scripts/watch-agents.cjs], and the properties of the composed document
    that the specification states about them.

    JavaScript strings are sequences of UTF-16 code units.  A code unit is a
    number [N] (below 2^16 in every string the scripts handle; nothing below
    depends on the bound), a string is a list of code units, and a position in
    a string is a [nat], as [String.prototype.slice], [RegExp.prototype.exec]
    and [match.index] count them. *)

From Stdlib Require Import String Ascii DecimalString.
From Stdlib Require Import NArith Arith Lia Bool List Permutation.
Import ListNotations.

Set Implicit Arguments.

(** ** JavaScript strings *)

Module JsString.

Definition char := N.
Definition str := list char.

(** A source literal made of Basic Latin characters only. *)
Definition L (s : string) : str := map N_of_ascii (list_ascii_of_string s).

Definition LF : char := 10%N.

Definition char_eqb (a b : char) : bool := N.eqb a b.

Fixpoint str_eqb (a b : str) : bool :=
  match a, b with
  | [], [] => true
  | x :: a', y :: b' => char_eqb x y && str_eqb a' b'
  | _, _ => false
  end.

Definition in_range (lo hi c : N) : bool := (N.leb lo c && N.leb c hi)%bool.

(** [\d] *)
Definition is_digit (c : char) : bool := in_range 48 57 c.

(** [\w], without the [i] and [u] flags: [A-Za-z0-9_] *)
Definition is_word (c : char) : bool :=
  in_range 97 122 c || in_range 65 90 c || is_digit c || N.eqb c 95.

(** LineTerminator: LF, CR, LS, PS.  [.] excludes them, and with the [m] flag
    [^] and [$] match next to them. *)
Definition is_line_terminator (c : char) : bool :=
  N.eqb c 10 || N.eqb c 13 || N.eqb c 8232 || N.eqb c 8233.

(** [\s], and what [String.prototype.trim] strips: WhiteSpace (TAB, VT, FF,
    SP, NBSP, ZWNBSP and the space separators of Unicode) and
    LineTerminator. *)
Definition is_space (c : char) : bool :=
  in_range 9 13 c || N.eqb c 32 || N.eqb c 160 || N.eqb c 5760
  || in_range 8192 8202 c || N.eqb c 8232 || N.eqb c 8233 || N.eqb c 8239
  || N.eqb c 8287 || N.eqb c 12288 || N.eqb c 65279.

(** [String.prototype.toLowerCase], code unit by code unit.  Basic Latin and
    Latin-1 capitals move to their small letters; the two characters outside
    Basic Latin whose lower case contains a Basic Latin letter are KELVIN SIGN
    (to [k]) and LATIN CAPITAL LETTER I WITH DOT ABOVE (to [i] and COMBINING
    DOT ABOVE).  Every other code unit is left as it is: its lower case is
    again outside Basic Latin and is white space exactly when the code unit
    is, which is all that the character classes applied to the result
    observe. *)
Definition lower_unit (c : char) : str :=
  if in_range 65 90 c then [c + 32]%N
  else if in_range 192 214 c || in_range 216 222 c then [c + 32]%N
  else if N.eqb c 8490 then [107%N]
  else if N.eqb c 304 then [105%N; 775%N]
  else [c].

Definition toLowerCase (s : str) : str := flat_map lower_unit s.

Fixpoint drop_while (p : char -> bool) (s : str) : str :=
  match s with
  | [] => []
  | c :: s' => if p c then drop_while p s' else s
  end.

Fixpoint take_while (p : char -> bool) (s : str) : str :=
  match s with
  | [] => []
  | c :: s' => if p c then c :: take_while p s' else []
  end.

(** [String.prototype.trim] *)
Definition trim (s : str) : str :=
  rev (drop_while is_space (rev (drop_while is_space s))).

(** [s.slice(a, b)] for [0 <= a] and [0 <= b]; both ends are clamped to the
    length and an end before the start gives the empty string. *)
Definition slice (s : str) (a b : nat) : str := firstn (b - a) (skipn a s).

(** [s.slice(a)] *)
Definition slice_from (s : str) (a : nat) : str := skipn a s.

Fixpoint starts_with (p s : str) : bool :=
  match p, s with
  | [], _ => true
  | x :: p', y :: s' => char_eqb x y && starts_with p' s'
  | _ :: _, [] => false
  end.

(** [s.endsWith(p)] *)
Definition endsWith (s p : str) : bool := starts_with (rev p) (rev s).

(** Position of the first occurrence of the literal [p] in [s]: what a regular
    expression that starts with the literal and has no anchor before it
    finds, and where a lazy [[\s\S]*?] followed by the literal stops. *)
Fixpoint index_of (p s : str) : option nat :=
  if starts_with p s then Some 0
  else match s with
       | [] => None
       | _ :: s' => option_map S (index_of p s')
       end.

Definition contains (p s : str) : bool :=
  match index_of p s with Some _ => true | None => false end.

(** [s.split(sep)] for a separator of one code unit: never the empty array. *)
Fixpoint split (sep : char) (s : str) : list str :=
  match s with
  | [] => [[]]
  | c :: s' =>
      if char_eqb c sep then [] :: split sep s'
      else match split sep s' with
           | h :: t => (c :: h) :: t
           | [] => [[c]]
           end
  end.

(** [parts.join(sep)] *)
Fixpoint join (sep : str) (parts : list str) : str :=
  match parts with
  | [] => []
  | [p] => p
  | p :: rest => p ++ sep ++ join sep rest
  end.

(** A non-negative integer in a template literal: decimal digits, no leading
    zero. *)
Definition decimal (n : nat) : str := L (NilZero.string_of_uint (Nat.to_uint n)).

(** [s.replace(/[^\w\s-]/g, '')] *)
Definition strip_non_word (s : str) : str :=
  filter (fun c => is_word c || is_space c || N.eqb c 45) s.

(** [s.replace(/\s+/g, '-')]: the scan keeps in [in_run] whether the previous
    code unit was white space, so that a maximal run gives one hyphen. *)
Fixpoint hyphenate_runs (in_run : bool) (s : str) : str :=
  match s with
  | [] => []
  | c :: s' =>
      if is_space c
      then (if in_run then hyphenate_runs true s' else 45%N :: hyphenate_runs true s')
      else c :: hyphenate_runs false s'
  end.

Definition replace_space_runs (s : str) : str := hyphenate_runs false s.

End JsString.

Import JsString.

(** ** Plain objects used as maps from strings to strings *)

Module JsObject.

(** The own properties of an object created by [{}] whose properties are
    written by [o[k] = v] with string values only, in creation order; keys are
    distinct. *)
Definition obj := list (str * str).

Definition proto_key : str := L "__proto__".

Fixpoint has_own (o : obj) (k : str) : bool :=
  match o with
  | [] => false
  | (k', _) :: o' => str_eqb k' k || has_own o' k
  end.

Fixpoint replace_value (o : obj) (k v : str) : obj :=
  match o with
  | [] => []
  | (k', v') :: o' =>
      if str_eqb k' k then (k', v) :: o' else (k', v') :: replace_value o' k v
  end.

(** [o[k] = v].  The key [__proto__] reaches the setter inherited from
    [Object.prototype], which ignores a value that is neither an object nor
    [null]: no property is created.  Every other key names no setter and no
    read-only property on the prototype chain, so the assignment overwrites
    the own property or creates it after the existing ones. *)
Definition set (o : obj) (k v : str) : obj :=
  if str_eqb k proto_key then o
  else if has_own o k then replace_value o k v
  else o ++ [(k, v)].

(** [o.k] for a key that [Object.prototype] does not define ([name],
    [description], [impact]): the own property, or [undefined]. *)
Fixpoint get (o : obj) (k : str) : option str :=
  match o with
  | [] => None
  | (k', v) :: o' => if str_eqb k' k then Some v else get o' k
  end.

Definition digits_value (s : str) : N :=
  fold_left (fun acc c => (acc * 10 + (c - 48))%N) s 0%N.

(** An array index: the canonical decimal form of an integer from 0 to
    2^32 - 2. *)
Definition is_array_index (k : str) : bool :=
  match k with
  | [] => false
  | c :: rest =>
      forallb is_digit k
      && (negb (N.eqb c 48) || match rest with [] => true | _ :: _ => false end)
      && N.leb (digits_value k) 4294967294
  end.

Fixpoint insert_by_index (e : str * str) (l : list (str * str)) : list (str * str) :=
  match l with
  | [] => [e]
  | e' :: l' =>
      if N.leb (digits_value (fst e)) (digits_value (fst e'))
      then e :: l
      else e' :: insert_by_index e l'
  end.

(** [Object.entries(o)]: the own property keys in the order of
    OrdinaryOwnPropertyKeys, array indices first in ascending numeric order,
    then the other strings in creation order. *)
Definition entries (o : obj) : list (str * str) :=
  fold_right insert_by_index [] (filter (fun kv => is_array_index (fst kv)) o)
  ++ filter (fun kv => negb (is_array_index (fst kv))) o.

(** Truthiness of a property read: [undefined] and the empty string are
    falsy. *)
Definition truthy (v : option str) : bool :=
  match v with
  | Some (_ :: _) => true
  | _ => false
  end.

(** [v || d] *)
Definition or_else (v : option str) (d : str) : str :=
  match v with
  | Some (c :: s) => c :: s
  | _ => d
  end.

End JsObject.

(** ** build-agents.cjs *)

Module BuildAgents.

Import JsObject.

(** *** The environment of one run *)

(** What [fs.existsSync] and [fs.readFileSync(_, 'utf-8')] find at a path: no
    entry, a file with its decoded text, or an entry whose read raises (a
    directory, a file without read permission) with the error's message. *)
Inductive fnode :=
| Absent
| File (text : str)
| Unreadable (message : str).

Record World := {
  skill_file : fnode;            (* at SKILL_FILE *)
  rule_file : str -> fnode;      (* at path.join(RULES_DIR, rulePath), by rulePath *)
  write_error : option str;      (* the message fs.writeFileSync(OUTPUT_FILE, _) raises, if it does *)
  OUTPUT_FILE : str;
  now_iso : str                  (* new Date().toISOString() *)
}.

(** *** Effects: console, the output being built, exceptions, exit *)

Inductive color := reset | green | blue | yellow | cyan | red.

Definition ESC : char := 27%N.

(** [colors[color]] in a template literal; the table has no [red], which
    prints as [undefined]. *)
Definition colors (c : color) : str :=
  match c with
  | reset => ESC :: L "[0m"
  | green => ESC :: L "[32m"
  | blue => ESC :: L "[34m"
  | yellow => ESC :: L "[33m"
  | cyan => ESC :: L "[36m"
  | red => L "undefined"
  end.

Record St := {
  console : list str;          (* lines printed by console.log *)
  stderr : list str;           (* messages of the errors given to console.error *)
  output : str;                (* the local variable [output] *)
  processedRules : nat;
  outfile : option str         (* what this run has written to OUTPUT_FILE *)
}.

Definition initial : St :=
  {| console := []; stderr := []; output := []; processedRules := 0; outfile := None |}.

Inductive exn :=
| Thrown (message : str)       (* a JavaScript exception *)
| ProcessExit (code : nat).    (* process.exit(code) *)

Inductive Res (A : Type) :=
| Ret (a : A) (s : St)
| Raise (e : exn) (s : St).

Arguments Ret {A} a s.
Arguments Raise {A} e s.

Definition M (A : Type) := St -> Res A.

Definition ret {A} (a : A) : M A := fun s => Ret a s.

Definition bind {A B} (m : M A) (k : A -> M B) : M B :=
  fun s => match m s with
           | Ret a s' => k a s'
           | Raise e s' => Raise e s'
           end.

Notation "x <- m ;; k" := (bind m (fun x => k))
  (at level 61, m at next level, right associativity).
Notation "m ;;; k" := (bind m (fun _ => k))
  (at level 61, right associativity).

Definition throw {A} (message : str) : M A := fun s => Raise (Thrown message) s.

Definition process_exit {A} (code : nat) : M A := fun s => Raise (ProcessExit code) s.

(** [log(message, color)] *)
Definition log (message : str) (c : color) : M unit :=
  fun s => Ret tt {| console := console s ++ [colors c ++ message ++ colors reset];
                     stderr := stderr s;
                     output := output s;
                     processedRules := processedRules s;
                     outfile := outfile s |}.

(** [output += text] *)
Definition emit (text : str) : M unit :=
  fun s => Ret tt {| console := console s;
                     stderr := stderr s;
                     output := output s ++ text;
                     processedRules := processedRules s;
                     outfile := outfile s |}.

(** [processedRules++] *)
Definition count_rule : M unit :=
  fun s => Ret tt {| console := console s;
                     stderr := stderr s;
                     output := output s;
                     processedRules := S (processedRules s);
                     outfile := outfile s |}.

Definition get_output : M str := fun s => Ret (output s) s.

Definition get_processedRules : M nat := fun s => Ret (processedRules s) s.

(** [fs.writeFileSync(OUTPUT_FILE, text, 'utf-8')] *)
Definition writeFileSync (w : World) (text : str) : M unit :=
  match write_error w with
  | Some message => throw message
  | None =>
      fun s => Ret tt {| console := console s;
                         stderr := stderr s;
                         output := output s;
                         processedRules := processedRules s;
                         outfile := Some text |}
  end.

(** [list.forEach((x, index) => f(x, index))], from index [i] on. *)
Fixpoint forEach_from {A} (f : A -> nat -> M unit) (l : list A) (i : nat) : M unit :=
  match l with
  | [] => ret tt
  | x :: l' => f x i ;;; forEach_from f l' (S i)
  end.

Definition forEach {A} (f : A -> nat -> M unit) (l : list A) : M unit :=
  forEach_from f l 0.

(** *** parseFrontmatter *)

Record Parsed := { frontmatter : obj; content : str }.

Definition fm_open : str := L "---" ++ [LF].
Definition fm_close : str := LF :: L "---" ++ [LF].

(** [content.match(/^---\n([\s\S]*?)\n---\n/)]: group 1 and the length of the
    whole match.  Without the [m] flag [^] holds at position 0 only; the lazy
    group ends at the first [\n---\n] after the opening line. *)
Definition frontmatterRegex_match (text : str) : option (str * nat) :=
  if starts_with fm_open text then
    let rest := skipn (length fm_open) text in
    match index_of fm_close rest with
    | Some k => Some (firstn k rest, length fm_open + k + length fm_close)
    | None => None
    end
  else None.

Definition colon : char := 58%N.

(** The body of [frontmatterText.split('\n').forEach(line => ...)]. *)
Definition parse_line (fm : obj) (line : str) : obj :=
  match split colon line with
  | key :: valueParts =>
      match key, valueParts with
      | _ :: _, _ :: _ => set fm (trim key) (trim (join [colon] valueParts))
      | _, _ => fm
      end
  | [] => fm
  end.

Definition parseFrontmatter (text : str) : Parsed :=
  match frontmatterRegex_match text with
  | None => {| frontmatter := []; content := text |}
  | Some (frontmatterText, len) =>
      {| frontmatter := fold_left parse_line (split LF frontmatterText) [];
         content := slice_from text len |}
  end.

(** *** readRuleFile *)

Record RuleData := { path : str; rule_frontmatter : obj; rule_content : str }.

Definition warning_sign : str := [9888; 65039]%N.

(** [readRuleFile(rulePath)]; [None] is [null]. *)
Definition readRuleFile (w : World) (rulePath : str) : M (option RuleData) :=
  match rule_file w rulePath with
  | Absent =>
      log (warning_sign ++ L "  Warning: Rule file not found: " ++ rulePath) yellow ;;;
      ret None
  | Unreadable message => throw message
  | File text =>
      let p := parseFrontmatter text in
      ret (Some {| path := rulePath;
                   rule_frontmatter := frontmatter p;
                   rule_content := trim (content p) |})
  end.

(** *** extractRuleReferences *)

(** One attempt of [/\[([^\]]+)\]\(rules\/([^)]+\.md)\)/g] at the head of
    [s]: groups 1 and 2 and the length of the match.  [[^\]]+] has to run up
    to the next [\]], and [[^)]+\.md] up to the next [)]: a shorter run is
    followed by a code unit of the same class, not by the delimiter. *)
Definition ruleRegex_at (s : str) : option (str * str * nat) :=
  match s with
  | c :: s1 =>
      if N.eqb c 91 then
        let t := take_while (fun c => negb (N.eqb c 93)) s1 in
        let s2 := skipn (length t) s1 in
        if (0 <? length t) && starts_with (L "](rules/") s2 then
          let s3 := skipn 8 s2 in
          let f := take_while (fun c => negb (N.eqb c 41)) s3 in
          let s4 := skipn (length f) s3 in
          if (4 <=? length f) && endsWith f (L ".md") && starts_with (L ")") s4
          then Some (t, f, 1 + length t + 8 + length f + 1)
          else None
        else None
      else None
  | [] => None
  end.

(** [ruleRegex.exec(text)] with [lastIndex] at the head of [s]: the groups of
    the leftmost match and the text after it. *)
Fixpoint ruleRegex_exec (s : str) : option (str * str * str) :=
  match ruleRegex_at s with
  | Some (t, f, len) => Some (t, f, skipn len s)
  | None => match s with
            | [] => None
            | _ :: s' => ruleRegex_exec s'
            end
  end.

(** The [while] loop; a match consumes at least one code unit, so [fuel]
    above the length of the text never runs out. *)
Fixpoint extract_loop (fuel : nat) (s : str) (rules : list (str * str)) : list (str * str) :=
  match fuel with
  | 0 => rules
  | S fuel' =>
      match ruleRegex_exec s with
      | None => rules
      | Some (t, f, rest) => extract_loop fuel' rest (rules ++ [(t, f)])
      end
  end.

Definition extractRuleReferences (skillContent : str) : list (str * str) :=
  extract_loop (S (length skillContent)) skillContent [].

(** *** createAnchor *)

Definition createAnchor (title : str) : str :=
  replace_space_runs (strip_non_word (toLowerCase title)).

(** *** Sections *)

Record RuleRef := { rule_title : str; file : str; rule_anchor : str }.

Record Section := {
  number : str;
  title : str;
  anchor : str;
  startIndex : nat;
  endIndex : nat;
  rules : list RuleRef
}.

Record SectionMatch := {
  m_index : nat;        (* sectionMatch.index *)
  m_number : str;       (* sectionMatch[1] *)
  m_title : str;        (* sectionMatch[2] *)
  m_lastIndex : nat     (* sectionRegex.lastIndex after the match *)
}.

(** [^] with the [m] flag: at position 0 or after a LineTerminator. *)
Definition at_line_start (prev : option char) : bool :=
  match prev with
  | None => true
  | Some c => is_line_terminator c
  end.

(** One attempt of [/^### (\d+)\. (.+)$/gm] at the head of [s], where [prev]
    is the code unit before it: groups 1 and 2 and the length of the match.
    [\d+] runs over all digits (a shorter run is followed by a digit, not by
    the dot) and [.+] to the end of the line, where [$] holds. *)
Definition sectionRegex_at (prev : option char) (s : str) : option (str * str * nat) :=
  if at_line_start prev && starts_with (L "### ") s then
    let s1 := skipn 4 s in
    let num := take_while is_digit s1 in
    let s2 := skipn (length num) s1 in
    if (0 <? length num) && starts_with (L ". ") s2 then
      let ttl := take_while (fun c => negb (is_line_terminator c)) (skipn 2 s2) in
      if 0 <? length ttl
      then Some (num, ttl, 4 + length num + 2 + length ttl)
      else None
    else None
  else None.

Fixpoint sectionRegex_search (prev : option char) (s : str) (pos : nat) : option SectionMatch :=
  match sectionRegex_at prev s with
  | Some (num, ttl, len) =>
      Some {| m_index := pos; m_number := num; m_title := ttl; m_lastIndex := pos + len |}
  | None =>
      match s with
      | [] => None
      | c :: s' => sectionRegex_search (Some c) s' (S pos)
      end
  end.

(** [sectionRegex.exec(skillBody)] with the given [lastIndex] (at most the
    length): the leftmost match at or after it. *)
Definition sectionRegex_exec (skillBody : str) (lastIndex : nat) : option SectionMatch :=
  sectionRegex_search
    (match lastIndex with 0 => None | S i => nth_error skillBody i end)
    (skipn lastIndex skillBody) lastIndex.

(** [sections[sections.length - 1].endIndex = sectionStart] *)
Fixpoint set_last_endIndex (sections : list Section) (sectionStart : nat) : list Section :=
  match sections with
  | [] => []
  | [s] => [{| number := number s; title := title s; anchor := anchor s;
               startIndex := startIndex s; endIndex := sectionStart;
               rules := rules s |}]
  | s :: rest => s :: set_last_endIndex rest sectionStart
  end.

(** The [while] loop over the section headings; a match consumes at least one
    code unit, so [fuel] above the length of the body never runs out. *)
Fixpoint split_loop (fuel : nat) (skillBody : str) (lastIndex : nat)
    (sections : list Section) : list Section :=
  match fuel with
  | 0 => sections
  | S fuel' =>
      match sectionRegex_exec skillBody lastIndex with
      | None => sections
      | Some m =>
          let sectionTitle := m_title m in
          let sectionStart := m_index m in
          split_loop fuel' skillBody (m_lastIndex m)
            (set_last_endIndex sections sectionStart
             ++ [{| number := m_number m;
                    title := sectionTitle;
                    anchor := createAnchor sectionTitle;
                    startIndex := sectionStart;
                    endIndex := length skillBody;
                    rules := [] |}])
      end
  end.

Definition split_sections (skillBody : str) : list Section :=
  split_loop (S (length skillBody)) skillBody 0 [].

(** [sections.forEach(section => { section.rules = ... })] *)
Definition with_rules (skillBody : str) (section : Section) : Section :=
  let sectionContent := slice skillBody (startIndex section) (endIndex section) in
  {| number := number section; title := title section; anchor := anchor section;
     startIndex := startIndex section; endIndex := endIndex section;
     rules := map (fun rule => {| rule_title := fst rule;
                                  file := snd rule;
                                  rule_anchor := createAnchor (fst rule) |})
                  (extractRuleReferences sectionContent) |}.

Definition extract_sections (skillBody : str) : list Section :=
  map (with_rules skillBody) (split_sections skillBody).

(** *** generateTOC *)

Definition LFLF : str := [LF; LF].

(** [section.rules.forEach((rule, ruleIndex) => { toc += ... })] *)
Fixpoint toc_rules (toc : str) (sectionNum : nat) (rules : list RuleRef)
    (ruleIndex : nat) : str :=
  match rules with
  | [] => toc
  | rule :: rest =>
      toc_rules
        (toc ++ L "   " ++ decimal sectionNum ++ L "." ++ decimal (ruleIndex + 1)
             ++ L ". [" ++ rule_title rule ++ L "](#" ++ rule_anchor rule ++ L ")" ++ [LF])
        sectionNum rest (S ruleIndex)
  end.

(** [sections.forEach((section, index) => { ... })] *)
Fixpoint toc_sections (toc : str) (sections : list Section) (index : nat) : str :=
  match sections with
  | [] => toc
  | section :: rest =>
      let sectionNum := index + 1 in
      let toc1 := toc ++ decimal sectionNum ++ L ". [" ++ title section
                      ++ L "](#" ++ anchor section ++ L ")" ++ [LF] in
      let toc2 := toc_rules toc1 sectionNum (rules section) 0 in
      toc_sections (toc2 ++ [LF]) rest (S index)
  end.

Definition generateTOC (sections : list Section) : str :=
  toc_sections (L "## Table of Contents" ++ LFLF) sections 0.

(** *** buildAgentsMd *)

Definition bar : str := repeat 9473%N 50.     (* '━'.repeat(50) *)
Definition check_mark : str := [10003%N].
Definition cross_mark : str := [10060%N].
Definition bullet : str := [8226%N].

(** The badge of an impact value. *)
Definition impact_badge (impact : str) : str :=
  if str_eqb impact (L "CRITICAL") then [55357; 56628]%N ++ L " CRITICAL"
  else if str_eqb impact (L "HIGH") then [55357; 57312]%N ++ L " HIGH"
  else if str_eqb impact (L "MEDIUM") then [55357; 57313]%N ++ L " MEDIUM"
  else [55357; 57314]%N ++ L " LOW".

(** [skillBody.match(/## <label>([\s\S]*?)(?=##|$)/)]: group 1 of the leftmost
    match.  Without the [m] flag [$] is the end of the text, so the lazy group
    ends before the first [##] after the label, or at the end. *)
Definition block_until_heading (label : str) (skillBody : str) : option str :=
  let heading := L "## " ++ label in
  match index_of heading skillBody with
  | None => None
  | Some i =>
      let rest := skipn (i + length heading) skillBody in
      Some (match index_of (L "##") rest with
            | Some k => firstn k rest
            | None => rest
            end)
  end.

(** [skillBody.match(/## References([\s\S]*?)$/)]: group 1. *)
Definition block_until_end (label : str) (skillBody : str) : option str :=
  let heading := L "## " ++ label in
  match index_of heading skillBody with
  | None => None
  | Some i => Some (skipn (i + length heading) skillBody)
  end.

(** The rule heading, written on both paths of the rule loop. *)
Definition rule_heading (section : Section) (ruleIndex : nat) (rule : RuleRef) : str :=
  L "### " ++ number section ++ L "." ++ decimal (ruleIndex + 1) ++ L ". "
    ++ rule_title rule ++ LFLF.

(** The body of [section.rules.forEach((rule, ruleIndex) => ...)]. *)
Definition process_rule (w : World) (section : Section) (rule : RuleRef)
    (ruleIndex : nat) : M unit :=
  log (L "  " ++ bullet ++ L " Processing: " ++ file rule) blue ;;;
  ruleData <- readRuleFile w (file rule) ;;
  match ruleData with
  | None =>
      emit (rule_heading section ruleIndex rule) ;;;
      emit (L "_Rule file not found: " ++ file rule ++ L "_" ++ LFLF)
  | Some ruleData =>
      emit (rule_heading section ruleIndex rule) ;;;
      emit (L "<a name=" ++ [34%N] ++ rule_anchor rule ++ [34%N] ++ L "></a>" ++ LFLF) ;;;
      (if truthy (get (rule_frontmatter ruleData) (L "impact"))
       then emit (L "**Impact:** "
                    ++ impact_badge (or_else (get (rule_frontmatter ruleData) (L "impact")) [])
                    ++ LFLF)
       else ret tt) ;;;
      (if truthy (get (rule_frontmatter ruleData) (L "description"))
       then emit (L "> " ++ or_else (get (rule_frontmatter ruleData) (L "description")) []
                    ++ LFLF)
       else ret tt) ;;;
      emit (rule_content ruleData ++ LFLF) ;;;
      emit (L "---" ++ LFLF) ;;;
      count_rule
  end.

(** The body of [sections.forEach((section, sectionIndex) => ...)]. *)
Definition process_section (w : World) (section : Section) (sectionIndex : nat) : M unit :=
  emit (L "## " ++ number section ++ L ". " ++ title section ++ LFLF) ;;;
  emit (L "<a name=" ++ [34%N] ++ anchor section ++ [34%N] ++ L "></a>" ++ LFLF) ;;;
  forEach (process_rule w section) (rules section).

(** The size in bytes of a text written as UTF-8: a surrogate pair takes four
    bytes, a lone surrogate the three of the replacement character. *)
Fixpoint utf8_size (s : str) : nat :=
  match s with
  | [] => 0
  | c :: s' =>
      if N.ltb c 128 then 1 + utf8_size s'
      else if N.ltb c 2048 then 2 + utf8_size s'
      else if in_range 55296 56319 c then
        match s' with
        | d :: s'' => if in_range 56320 57343 d then 4 + utf8_size s'' else 3 + utf8_size s'
        | [] => 3
        end
      else 3 + utf8_size s'
  end.

(** [(size / 1024).toFixed(2)]: the quotient is exact in a double, and
    [toFixed] takes the nearest number of hundredths, the larger of two. *)
Definition kilobytes_fixed2 (size : nat) : str :=
  let n := (200 * size + 1024) / 2048 in
  decimal (n / 100) ++ L "." ++ decimal (n mod 100 / 10) ++ decimal (n mod 10).

Definition buildAgentsMd (w : World) : M unit :=
  log (LF :: [55357; 56960]%N ++ L " Building AGENTS.md...") cyan ;;;
  log bar cyan ;;;
  skillContent <-
    match skill_file w with
    | Absent =>
        log (cross_mark ++ L " Error: SKILL.md not found") red ;;;
        process_exit 1
    | Unreadable message => throw message
    | File text => ret text
    end ;;
  let parsed := parseFrontmatter skillContent in
  let skillFrontmatter := frontmatter parsed in
  let skillBody := content parsed in
  log (check_mark ++ L " Read SKILL.md") green ;;;
  let sections := extract_sections skillBody in
  log (check_mark ++ L " Found " ++ decimal (length sections) ++ L " sections") green ;;;
  forEach (fun section _ =>
             log (L "  " ++ bullet ++ L " " ++ title section ++ L ": "
                    ++ decimal (length (rules section)) ++ L " rules") blue)
          sections ;;;
  let totalRules := fold_left (fun n section => n + length (rules section)) sections 0 in
  log (check_mark ++ L " Found " ++ decimal totalRules ++ L " total rules") green ;;;
  emit (L "---" ++ [LF]) ;;;
  forEach (fun kv _ => emit (fst kv ++ L ": " ++ snd kv ++ [LF])) (entries skillFrontmatter) ;;;
  emit (L "---" ++ LFLF) ;;;
  emit (L "# " ++ or_else (get skillFrontmatter (L "name")) (L "Composio Agent Skills") ++ LFLF) ;;;
  emit (or_else (get skillFrontmatter (L "description")) [] ++ LFLF) ;;;
  match block_until_heading (L "When to Apply") skillBody with
  | Some group =>
      emit (L "## When to Apply" ++ [LF]) ;;;
      emit (trim group ++ LFLF)
  | None => ret tt
  end ;;;
  log (check_mark ++ L " Generating table of contents") green ;;;
  emit (generateTOC sections) ;;;
  emit (L "---" ++ LFLF) ;;;
  log (check_mark ++ L " Processing rules...") green ;;;
  forEach (process_section w) sections ;;;
  processed <- get_processedRules ;;
  log (check_mark ++ L " Processed " ++ decimal processed ++ L " rules") green ;;;
  match block_until_heading (L "Quick Start") skillBody with
  | Some group =>
      emit (L "## Quick Start" ++ LFLF) ;;;
      emit (trim group ++ LFLF)
  | None => ret tt
  end ;;;
  match block_until_end (L "References") skillBody with
  | Some group =>
      emit (L "## References" ++ LFLF) ;;;
      emit (trim group ++ LFLF)
  | None => ret tt
  end ;;;
  emit (LF :: L "---" ++ LFLF) ;;;
  emit (L "_This file was automatically generated from individual rule files on "
          ++ now_iso w ++ L "_" ++ [LF]) ;;;
  emit (L "_To update, run: `npm run build:agents`_" ++ [LF]) ;;;
  text <- get_output ;;
  writeFileSync w text ;;;
  log bar cyan ;;;
  log ([9989%N] ++ L " Successfully generated AGENTS.md") green ;;;
  log ([55357; 56516]%N ++ L " Output: " ++ OUTPUT_FILE w) blue ;;;
  log ([55357; 56522]%N ++ L " Stats: " ++ decimal (length sections) ++ L " sections, "
         ++ decimal processed ++ L " rules") blue ;;;
  let agentsSize := kilobytes_fixed2 (utf8_size text) in
  log ([55357; 56550]%N ++ L " Size: " ++ agentsSize ++ L " KB") blue ;;;
  log bar cyan.

(** The script: [try { buildAgentsMd() } catch (error) { ... process.exit(1) }].
    The result is the final state and the exit code of the process;
    [process.exit] inside [buildAgentsMd] ends the process and is not
    caught. *)
Definition run (w : World) : St * nat :=
  match buildAgentsMd w initial with
  | Ret _ s => (s, 0)
  | Raise (ProcessExit code) s => (s, code)
  | Raise (Thrown message) s =>
      match log (LF :: cross_mark ++ L " Error: " ++ message) red s with
      | Ret _ s' | Raise _ s' =>
          ({| console := console s';
              stderr := stderr s' ++ [message];
              output := output s';
              processedRules := processedRules s';
              outfile := outfile s' |}, 1)
      end
  end.

End BuildAgents.

(** ** watch-agents.cjs *)

Module WatchAgents.

Inductive color := reset | green | blue | yellow | cyan | magenta | red.

Definition ESC : char := 27%N.

(** [colors[color]]; this table too has no [red]. *)
Definition colors (c : color) : str :=
  match c with
  | reset => ESC :: L "[0m"
  | green => ESC :: L "[32m"
  | blue => ESC :: L "[34m"
  | yellow => ESC :: L "[33m"
  | cyan => ESC :: L "[36m"
  | magenta => ESC :: L "[35m"
  | red => L "undefined"
  end.

(** What the driver meets outside itself. *)
Record Env := {
  SKILL_FILE : str;
  RULES_DIR : str;
  time_string : nat -> str;          (* new Date().toLocaleTimeString() at the n-th rebuild *)
  child_ok : nat -> str -> bool;     (* whether the n-th child process, given its command, exits with status 0 *)
  watch_skill_error : option str;    (* the message fs.watch(SKILL_FILE, _) raises, if it does *)
  watch_rules_error : option str     (* the message fs.watch(RULES_DIR, _, _) raises, if it does *)
}.

Inductive phase :=
| Watching                 (* both watchers installed, the process stays alive *)
| Crashed (message : str). (* an exception reached the top level *)

Record St := {
  console : list str;      (* lines printed by console.log *)
  executed : list str;     (* the commands given to execSync, in order *)
  status : phase
}.

(** [log(message, color)] *)
Definition log (message : str) (c : color) (s : St) : St :=
  {| console := console s ++ [colors c ++ message ++ colors reset];
     executed := executed s;
     status := status s |}.

Definition build_command : str := L "node scripts/build-agents.js".

(** [rebuild()]: [execSync] raises when the child exits with another status
    than 0, and the [catch] logs it. *)
Definition rebuild (env : Env) (s : St) : St :=
  let n := length (executed s) in
  let timestamp := time_string env n in
  let s1 := log (LF :: L "[" ++ timestamp ++ L "] " ++ [55357; 56580]%N
                   ++ L " Rebuilding AGENTS.md...") yellow s in
  let s2 := {| console := console s1;
               executed := executed s1 ++ [build_command];
               status := status s1 |} in
  if child_ok env n build_command then s2
  else log ([10060%N] ++ L " Build failed") red s2.

Definition bar : str := repeat 9473%N 50.

(** The script from its first statement to the last: the banner, the initial
    build, the two [fs.watch] calls. *)
Definition startup (env : Env) : St :=
  let s0 := {| console := []; executed := []; status := Watching |} in
  let s1 := log (LF :: [55357; 56384]%N ++ L " Watching for changes...") cyan s0 in
  let s2 := log bar cyan s1 in
  let s3 := log ([55357; 56513]%N ++ L " SKILL.md: " ++ SKILL_FILE env) blue s2 in
  let s4 := log ([55357; 56513]%N ++ L " Rules: " ++ RULES_DIR env) blue s3 in
  let s5 := log bar cyan s4 in
  let s6 := log (L "Press Ctrl+C to stop" ++ [LF]) magenta s5 in
  let s7 := rebuild env s6 in
  match watch_skill_error env with
  | Some message =>
      {| console := console s7; executed := executed s7; status := Crashed message |}
  | None =>
      match watch_rules_error env with
      | Some message =>
          {| console := console s7; executed := executed s7; status := Crashed message |}
      | None => log ([9989%N] ++ L " Watching started successfully" ++ [LF]) green s7
      end
  end.

(** The first argument of a watcher's callback. *)
Inductive eventType := change | rename.

(** A call of one of the two callbacks; [filename] may be [null]. *)
Inductive event :=
| SkillEvent (type : eventType) (filename : option str)
| RulesEvent (type : eventType) (filename : option str).

(** The callback of [fs.watch(SKILL_FILE, ...)]. *)
Definition on_skill (env : Env) (type : eventType) (filename : option str) (s : St) : St :=
  match type with
  | change => rebuild env (log (LF :: [55357; 56541]%N ++ L " SKILL.md changed") yellow s)
  | rename => s
  end.

(** The callback of [fs.watch(RULES_DIR, { recursive: true }, ...)]. *)
Definition on_rules (env : Env) (type : eventType) (filename : option str) (s : St) : St :=
  match filename with
  | Some (c :: f) =>
      if endsWith (c :: f) (L ".md")
      then rebuild env (log (LF :: [55357; 56541]%N ++ L " Rule changed: " ++ c :: f) yellow s)
      else s
  | _ => s
  end.

(** One event reaching the process: a crashed process has no callbacks. *)
Definition handle (env : Env) (s : St) (e : event) : St :=
  match status s with
  | Crashed _ => s
  | Watching =>
      match e with
      | SkillEvent type filename => on_skill env type filename s
      | RulesEvent type filename => on_rules env type filename s
      end
  end.

(** The driver over a sequence of events. *)
Definition drive (env : Env) (events : list event) : St :=
  fold_left (handle env) events (startup env).

(** The script files the repository holds under [scripts/]. *)
Definition repository_scripts : list str :=
  [L "scripts/build-agents.cjs"; L "scripts/watch-agents.cjs"].

(** The files [node <path>] tries for its main module: the path, then the
    path with each of the extensions [.js], [.json] and [.node]. *)
Definition node_candidates (p : str) : list str :=
  [p; p ++ L ".js"; p ++ L ".json"; p ++ L ".node"].

(** The script a command runs, when it is [node <path>]. *)
Definition command_script (command : str) : option str :=
  if starts_with (L "node ") command then Some (skipn 5 command) else None.

(** Whether a command is [node <path>] for a path that names a script of the
    repository. *)
Definition runs_repository_script (command : str) : bool :=
  match command_script command with
  | Some p => existsb (fun c => existsb (str_eqb c) repository_scripts) (node_candidates p)
  | None => false
  end.

(** Whether a command loads the build script, that is, runs the composer. *)
Definition runs_composer (command : str) : bool :=
  match command_script command with
  | Some p => existsb (str_eqb (L "scripts/build-agents.cjs")) (node_candidates p)
  | None => false
  end.

End WatchAgents.

Import JsObject BuildAgents.

(** ** Definitions used to state the properties *)

(** The alphabet of anchors: small Basic Latin letters, digits, the underscore
    and the hyphen. *)
Definition is_anchor_char (c : char) : bool :=
  in_range 97 122 c || is_digit c || N.eqb c 95 || N.eqb c 45.

Definition sample_world (rule : fnode) : World :=
  {| skill_file := File (L "---" ++ [LF] ++ L "name: demo" ++ [LF] ++ L "---" ++ [LF]
                          ++ L "### 1. Example" ++ [LF] ++ L "[My Rule](rules/my-rule.md)" ++ [LF]);
     rule_file := fun p => if str_eqb p (L "my-rule.md") then rule else Absent;
     write_error := None;
     OUTPUT_FILE := L "AGENTS.md";
     now_iso := L "2026-01-01T00:00:00.000Z" |}.

(** An event that the specification counts as asking for a rebuild: a change
    of the source document, or any event in the rules directory whose file
    name ends in [.md]. *)
Definition qualifies (e : WatchAgents.event) : bool :=
  match e with
  | WatchAgents.SkillEvent WatchAgents.change _ => true
  | WatchAgents.SkillEvent WatchAgents.rename _ => false
  | WatchAgents.RulesEvent _ (Some filename) => endsWith filename (L ".md")
  | WatchAgents.RulesEvent _ None => false
  end.

(** The line a failed rebuild prints. *)
Definition build_failed_line : str :=
  WatchAgents.colors WatchAgents.red ++ [10060%N] ++ L " Build failed"
    ++ WatchAgents.colors WatchAgents.reset.

(** An environment in which a child process succeeds exactly when its command
    runs a script of the repository. *)
Definition committed_env : WatchAgents.Env :=
  {| WatchAgents.SKILL_FILE := L "skills/composio/SKILL.md";
     WatchAgents.RULES_DIR := L "skills/composio/rules";
     WatchAgents.time_string := fun _ => L "12:00:00";
     WatchAgents.child_ok := fun _ command => WatchAgents.runs_repository_script command;
     WatchAgents.watch_skill_error := None;
     WatchAgents.watch_rules_error := None |}.

Definition sample_events : list WatchAgents.event :=
  [WatchAgents.SkillEvent WatchAgents.change (Some (L "SKILL.md"));
   WatchAgents.RulesEvent WatchAgents.change (Some (L "notes.txt"));
   WatchAgents.RulesEvent WatchAgents.rename (Some (L "tr-auth-auto.md"));
   WatchAgents.SkillEvent WatchAgents.rename (Some (L "SKILL.md"));
   WatchAgents.RulesEvent WatchAgents.change None].

(** *** The text of the composed document, piece by piece

    The pieces are indexed by the numbers they print: [ruleNumber] is the
    1-based position of a rule in its section, [sectionNumber] the 1-based
    position of a section in the list. *)

Definition anchor_marker (a : str) : str :=
  L "<a name=" ++ [34%N] ++ a ++ [34%N] ++ L "></a>" ++ LFLF.

Definition separator : str := L "---" ++ LFLF.

Definition rule_heading_line (label : str) (ruleNumber : nat) (rule : RuleRef) : str :=
  L "### " ++ label ++ L "." ++ decimal ruleNumber ++ L ". " ++ rule_title rule ++ LFLF.

Definition not_found_notice (rule : RuleRef) : str :=
  L "_Rule file not found: " ++ file rule ++ L "_" ++ LFLF.

(** A rule whose file is missing: the heading, then the notice. *)
Definition missing_rule_text (section : Section) (ruleNumber : nat) (rule : RuleRef) : str :=
  rule_heading_line (number section) ruleNumber rule ++ not_found_notice rule.

Definition impact_line (fm : obj) : str :=
  match get fm (L "impact") with
  | Some (c :: v) => L "**Impact:** " ++ impact_badge (c :: v) ++ LFLF
  | _ => []
  end.

Definition description_line (fm : obj) : str :=
  match get fm (L "description") with
  | Some (c :: v) => L "> " ++ (c :: v) ++ LFLF
  | _ => []
  end.

(** A rule whose file holds [text]: the heading, the anchor marker, the
    optional badge and description, the trimmed body, the separator. *)
Definition resolved_rule_text (section : Section) (ruleNumber : nat) (rule : RuleRef)
    (text : str) : str :=
  rule_heading_line (number section) ruleNumber rule
    ++ anchor_marker (rule_anchor rule)
    ++ impact_line (frontmatter (parseFrontmatter text))
    ++ description_line (frontmatter (parseFrontmatter text))
    ++ trim (content (parseFrontmatter text)) ++ LFLF
    ++ separator.

Definition rule_text (w : World) (section : Section) (ruleNumber : nat) (rule : RuleRef) : str :=
  match rule_file w (file rule) with
  | Absent => missing_rule_text section ruleNumber rule
  | File text => resolved_rule_text section ruleNumber rule text
  | Unreadable _ => []
  end.

Definition processing_line (rule : RuleRef) : str :=
  colors blue ++ (L "  " ++ bullet ++ L " Processing: " ++ file rule) ++ colors reset.

Definition warning_line (rulePath : str) : str :=
  colors yellow ++ (warning_sign ++ L "  Warning: Rule file not found: " ++ rulePath)
    ++ colors reset.

Definition rule_log (w : World) (rule : RuleRef) : list str :=
  match rule_file w (file rule) with
  | Absent => [processing_line rule; warning_line (file rule)]
  | _ => [processing_line rule]
  end.

Definition rule_count (w : World) (rule : RuleRef) : nat :=
  match rule_file w (file rule) with
  | File _ => 1
  | _ => 0
  end.

(** The elements of a list with their 1-based positions. *)
Definition numbered {A} (l : list A) : list (nat * A) := combine (seq 1 (length l)) l.

Definition rules_text (w : World) (section : Section) : str :=
  concat (map (fun jr => rule_text w section (fst jr) (snd jr)) (numbered (rules section))).

Definition section_heading_line (label : str) (section : Section) : str :=
  L "## " ++ label ++ L ". " ++ title section ++ LFLF.

(** A section of the composed document: the heading with the number captured
    from the source heading, the anchor marker, the rules. *)
Definition section_text (w : World) (section : Section) : str :=
  section_heading_line (number section) section
    ++ anchor_marker (anchor section)
    ++ rules_text w section.

Definition sections_text (w : World) (sections : list Section) : str :=
  concat (map (section_text w) sections).

Definition toc_rule_line (sectionNumber ruleNumber : nat) (rule : RuleRef) : str :=
  L "   " ++ decimal sectionNumber ++ L "." ++ decimal ruleNumber ++ L ". ["
    ++ rule_title rule ++ L "](#" ++ rule_anchor rule ++ L ")" ++ [LF].

Definition toc_section_line (sectionNumber : nat) (section : Section) : str :=
  decimal sectionNumber ++ L ". [" ++ title section ++ L "](#" ++ anchor section
    ++ L ")" ++ [LF].

(** The entries of one section in the table of contents. *)
Definition toc_entry (sectionNumber : nat) (section : Section) : str :=
  toc_section_line sectionNumber section
    ++ concat (map (fun jr => toc_rule_line sectionNumber (fst jr) (snd jr))
                   (numbered (rules section)))
    ++ [LF].

(** What a computation adds to the state when it neither raises nor writes
    the output file. *)
Record Delta := { d_console : list str; d_output : str; d_count : nat }.

Definition extend (s : St) (d : Delta) : St :=
  {| console := console s ++ d_console d;
     stderr := stderr s;
     output := output s ++ d_output d;
     processedRules := processedRules s + d_count d;
     outfile := outfile s |}.

Definition appends (m : M unit) (d : Delta) : Prop :=
  forall s, m s = Ret tt (extend s d).

Definition delta_app (d1 d2 : Delta) : Delta :=
  {| d_console := d_console d1 ++ d_console d2;
     d_output := d_output d1 ++ d_output d2;
     d_count := d_count d1 + d_count d2 |}.

Definition delta_nil : Delta := {| d_console := []; d_output := []; d_count := 0 |}.

Definition rule_delta (w : World) (section : Section) (ruleNumber : nat) (rule : RuleRef) : Delta :=
  {| d_console := rule_log w rule;
     d_output := rule_text w section ruleNumber rule;
     d_count := rule_count w rule |}.

(** No referenced rule file raises when read. *)
Definition readable (w : World) (rule : RuleRef) : bool :=
  match rule_file w (file rule) with
  | Unreadable _ => false
  | _ => true
  end.

(** The state a computation ends in. *)
Definition final_state {A} (r : Res A) : St :=
  match r with
  | Ret _ s => s
  | Raise _ s => s
  end.

Definition sample_rule : RuleRef :=
  {| rule_title := L "My Rule"; file := L "my-rule.md"; rule_anchor := L "my-rule" |}.

Definition sample_section : Section :=
  {| number := L "1"; title := L "Example"; anchor := L "example";
     startIndex := 0; endIndex := 43; rules := [sample_rule] |}.

(** *** The heading lines of a body *)

(** Every position of a text at which [/^### (\d+)\. (.+)$/m] matches, with
    the two groups, from the head of [s] (at position [pos], after [prev])
    on: the heading lines of the text, in source order. *)
Fixpoint matches_scan (prev : option char) (s : str) (pos : nat) : list (nat * str * str) :=
  match sectionRegex_at prev s with
  | Some (num, ttl, _) => [(pos, num, ttl)]
  | None => []
  end
  ++ match s with
     | [] => []
     | c :: s' => matches_scan (Some c) s' (S pos)
     end.

Definition heading_lines (body : str) : list (nat * str * str) := matches_scan None body 0.

Definition heading_starts (body : str) : list nat :=
  map (fun m => fst (fst m)) (heading_lines body).

(** The heading lines from position [p] of the body on. *)
Definition scan_at (body : str) (p : nat) : list (nat * str * str) :=
  matches_scan (match p with 0 => None | S i => nth_error body i end) (skipn p body) p.

(** The sections that a list of heading lines stands for in a body of [n]
    code units: each ends where the next starts, the last at [n]. *)
Fixpoint build_sections (ms : list (nat * str * str)) (n : nat) : list Section :=
  match ms with
  | [] => []
  | (i, num, ttl) :: rest =>
      {| number := num; title := ttl; anchor := createAnchor ttl;
         startIndex := i;
         endIndex := match rest with
                     | [] => n
                     | (j, _, _) :: _ => j
                     end;
         rules := [] |}
      :: build_sections rest n
  end.

(** The span of a section: the text of the body in its range. *)
Definition span (body : str) (section : Section) : str :=
  slice body (startIndex section) (endIndex section).

(** Each range is non-empty and ends where the next starts, the last at
    [n]. *)
Fixpoint chained (n : nat) (sections : list Section) : Prop :=
  match sections with
  | [] => True
  | s :: rest =>
      startIndex s < endIndex s
      /\ endIndex s = match rest with
                      | [] => n
                      | s' :: _ => startIndex s'
                      end
      /\ chained n rest
  end.

Definition not_terminator (c : char) : bool := negb (is_line_terminator c).

(** The sections of the loop once the heading lines [ms] that remain have
    been read: the last section so far ends at the first of them. *)
Definition close_with (acc : list Section) (ms : list (nat * str * str)) (n : nat)
    : list Section :=
  match ms with
  | [] => acc
  | (j, _, _) :: _ => set_last_endIndex acc j
  end ++ build_sections ms n.

(** Positions in increasing order, from [lo] on and below [hi]. *)
Fixpoint increasing (lo : nat) (l : list nat) (hi : nat) : Prop :=
  match l with
  | [] => True
  | x :: l' => lo <= x < hi /\ increasing (S x) l' hi
  end.

Definition position (m : nat * str * str) : nat := fst (fst m).

(** *** The composed document *)

Definition rules_delta (w : World) (section : Section) : Delta :=
  fold_right delta_app delta_nil
    (map (fun jr => rule_delta w section (fst jr) (snd jr)) (numbered (rules section))).

Definition section_delta (w : World) (section : Section) : Delta :=
  delta_app
    {| d_console := [];
       d_output := section_heading_line (number section) section
                     ++ anchor_marker (anchor section);
       d_count := 0 |}
    (rules_delta w section).

Definition sections_delta (w : World) (sections : list Section) : Delta :=
  fold_right delta_app delta_nil (map (section_delta w) sections).

Definition all_readable (w : World) (sections : list Section) : bool :=
  forallb (fun section => forallb (readable w) (rules section)) sections.

Definition entry_line (kv : str * str) : str := fst kv ++ L ": " ++ snd kv ++ [LF].

(** The frontmatter block at the top of the composed document. *)
Definition frontmatter_block (pairs : list (str * str)) : str :=
  L "---" ++ [LF] ++ concat (map entry_line pairs) ++ L "---" ++ LFLF.

Definition title_block (fm : obj) : str :=
  (L "# " ++ or_else (get fm (L "name")) (L "Composio Agent Skills") ++ LFLF)
    ++ (or_else (get fm (L "description")) [] ++ LFLF).

Definition when_block (skillBody : str) : str :=
  match block_until_heading (L "When to Apply") skillBody with
  | Some group => (L "## When to Apply" ++ [LF]) ++ (trim group ++ LFLF)
  | None => []
  end.

Definition quick_start_block (skillBody : str) : str :=
  match block_until_heading (L "Quick Start") skillBody with
  | Some group => (L "## Quick Start" ++ LFLF) ++ (trim group ++ LFLF)
  | None => []
  end.

Definition references_block (skillBody : str) : str :=
  match block_until_end (L "References") skillBody with
  | Some group => (L "## References" ++ LFLF) ++ (trim group ++ LFLF)
  | None => []
  end.

Definition footer_block (w : World) : str :=
  (LF :: L "---" ++ LFLF)
    ++ (L "_This file was automatically generated from individual rule files on "
          ++ now_iso w ++ L "_" ++ [LF])
    ++ (L "_To update, run: `npm run build:agents`_" ++ [LF]).

(** The document composed from the text of SKILL.md, when every rule file is
    missing or readable. *)
Definition composed (w : World) (text : str) : str :=
  let fm := frontmatter (parseFrontmatter text) in
  let skillBody := content (parseFrontmatter text) in
  let sections := extract_sections skillBody in
  frontmatter_block (entries fm)
    ++ title_block fm
    ++ when_block skillBody
    ++ generateTOC sections
    ++ separator
    ++ sections_text w sections
    ++ quick_start_block skillBody
    ++ references_block skillBody
    ++ footer_block w.

(** The state after [fs.writeFileSync(OUTPUT_FILE, text)] has succeeded. *)
Definition written (s : St) (text : str) : St :=
  {| console := console s; stderr := stderr s; output := output s;
     processedRules := processedRules s; outfile := Some text |}.

(** A list holds a segment: the elements of [seg], consecutive and in order. *)
Definition has_segment {A} (seg l : list A) : Prop :=
  exists before after, l = before ++ seg ++ after.

(** A document whose only heading line carries the number 5. *)
Definition renumbered_world : World :=
  {| skill_file := File (L "### 5. Foo" ++ [LF] ++ L "[My Rule](rules/my-rule.md)" ++ [LF]);
     rule_file := fun _ => Absent;
     write_error := None;
     OUTPUT_FILE := L "AGENTS.md";
     now_iso := L "2026-01-01T00:00:00.000Z" |}.

(** The sections of the document in SKILL.md. *)
Definition sections_of (text : str) : list Section :=
  extract_sections (content (parseFrontmatter text)).

(** *** The pairs of a frontmatter block, in the words of the specification *)

(** A line cut at its first colon: what is before it and what is after it. *)
Fixpoint cut_at_colon (line : str) : option (str * str) :=
  match line with
  | [] => None
  | c :: rest =>
      if char_eqb c colon then Some ([], rest)
      else match cut_at_colon rest with
           | Some (k, v) => Some (c :: k, v)
           | None => None
           end
  end.

(** The pair of a line: key and value trimmed; a line with no colon, or with
    nothing before its first colon, has none. *)
Definition spec_pair (line : str) : option (str * str) :=
  match cut_at_colon line with
  | Some (c :: k, v) => Some (trim (c :: k), trim v)
  | _ => None
  end.

Definition spec_pairs (frontmatterText : str) : list (str * str) :=
  flat_map (fun line => match spec_pair line with
                        | Some kv => [kv]
                        | None => []
                        end)
           (split LF frontmatterText).

Definition has_key (k : str) (pairs : list (str * str)) : bool :=
  existsb (fun kv => str_eqb (fst kv) k) pairs.

(** The value of the last pair with key [k]. *)
Fixpoint last_value (k : str) (pairs : list (str * str)) : option str :=
  match pairs with
  | [] => None
  | (k', v) :: rest =>
      match last_value k rest with
      | Some v' => Some v'
      | None => if str_eqb k' k then Some v else None
      end
  end.

(** The keys of the pairs, each at its first appearance; [earlier] holds the
    pairs already passed. *)
Fixpoint first_occurrences (earlier pairs : list (str * str)) : list str :=
  match pairs with
  | [] => []
  | (k, v) :: rest =>
      if has_key k earlier then first_occurrences (earlier ++ [(k, v)]) rest
      else k :: first_occurrences (earlier ++ [(k, v)]) rest
  end.

(** One pair for each key, in the order of first appearance, with the value
    of the key's last appearance. *)
Definition merged (pairs : list (str * str)) : list (str * str) :=
  map (fun k => (k, match last_value k pairs with
                    | Some v => v
                    | None => []
                    end))
      (first_occurrences [] pairs).

Definition not_proto (kv : str * str) : bool := negb (str_eqb (fst kv) proto_key).

(** [o[k] = v] for a key other than [__proto__]. *)
Definition set_own (o : obj) (kv : str * str) : obj :=
  if has_own o (fst kv) then replace_value o (fst kv) (snd kv) else o ++ [kv].

(** A document whose frontmatter has a key that is an array index. *)
Definition indexed_world : World :=
  {| skill_file := File (L "---" ++ [LF] ++ L "name: demo" ++ [LF] ++ L "1: one" ++ [LF]
                          ++ L "---" ++ [LF] ++ L "body" ++ [LF]);
     rule_file := fun _ => Absent;
     write_error := None;
     OUTPUT_FILE := L "AGENTS.md";
     now_iso := L "2026-01-01T00:00:00.000Z" |}.

(** *** Further environments and texts used to state properties *)

(** The sample document with SKILL.md missing. *)
Definition world_without_skill : World :=
  {| skill_file := Absent;
     rule_file := fun _ => Absent;
     write_error := None;
     OUTPUT_FILE := L "AGENTS.md";
     now_iso := L "2026-01-01T00:00:00.000Z" |}.

(** An environment in which the rules directory cannot be watched. *)
Definition unwatchable_env : WatchAgents.Env :=
  {| WatchAgents.SKILL_FILE := L "skills/composio/SKILL.md";
     WatchAgents.RULES_DIR := L "skills/composio/rules";
     WatchAgents.time_string := fun _ => L "12:00:00";
     WatchAgents.child_ok := fun _ _ => true;
     WatchAgents.watch_skill_error := None;
     WatchAgents.watch_rules_error := Some (L "ENOENT") |}.

(** Whether installing the watchers raises. *)
Definition watchers_fail (env : WatchAgents.Env) : bool :=
  match WatchAgents.watch_skill_error env, WatchAgents.watch_rules_error env with
  | None, None => false
  | _, _ => true
  end.

(** The heading line that opens a section. *)
Definition heading_line (num ttl : str) : str := L "### " ++ num ++ L ". " ++ ttl.

(** What the splitter guarantees of a section of [body]. *)
Definition well_formed_section (body : str) (section : Section) : Prop :=
  starts_with (heading_line (number section) (title section)) (span body section) = true
  /\ number section <> []
  /\ Forall (fun c => is_digit c = true) (number section)
  /\ title section <> []
  /\ Forall (fun c => is_line_terminator c = false) (title section)
  /\ anchor section = createAnchor (title section)
  /\ rules section = []
  /\ endIndex section <= length body.

(** What a match of the heading pattern guarantees of the text it starts
    in. *)
Definition heading_match (s num ttl : str) : Prop :=
  starts_with (heading_line num ttl) s = true
  /\ num <> []
  /\ Forall (fun c => is_digit c = true) num
  /\ ttl <> []
  /\ Forall (fun c => is_line_terminator c = false) ttl.

(** Heading lines that are matches, each ending before the next starts. *)
Fixpoint spaced (body : str) (ms : list (nat * str * str)) : Prop :=
  match ms with
  | [] => True
  | (i, num, ttl) :: rest =>
      heading_match (skipn i body) num ttl
      /\ i + length (heading_line num ttl)
         <= match rest with
            | [] => length body
            | (j, _, _) :: _ => j
            end
      /\ spaced body rest
  end.

(** The text of a markdown link to a rule file. *)
Definition link_text (t f : str) : str := [91%N] ++ t ++ L "](rules/" ++ f ++ L ")".

(** What the pattern of [extractRuleReferences] guarantees of a reference:
    a title that is not empty and holds no [\]], a file name that holds no
    [)] and ends in [.md] after at least one code unit. *)
Definition valid_reference (tf : str * str) : Prop :=
  fst tf <> []
  /\ Forall (fun c => N.eqb c 93 = false) (fst tf)
  /\ Forall (fun c => N.eqb c 41 = false) (snd tf)
  /\ endsWith (snd tf) (L ".md") = true
  /\ 4 <= length (snd tf).

(** Whether the file of a rule was found and read. *)
Definition found (w : World) (rule : RuleRef) : bool :=
  match rule_file w (file rule) with
  | File _ => true
  | _ => false
  end.

(** The message of the first rule file, in the order of the rules, whose
    read raises. *)
Fixpoint rules_error (w : World) (rules : list RuleRef) : option str :=
  match rules with
  | [] => None
  | rule :: rest =>
      match rule_file w (file rule) with
      | Unreadable message => Some message
      | _ => rules_error w rest
      end
  end.

Fixpoint first_error (w : World) (sections : list Section) : option str :=
  match sections with
  | [] => None
  | section :: rest =>
      match rules_error w (rules section) with
      | Some message => Some message
      | None => first_error w rest
      end
  end.


(** * Properties *)

Example createAnchor_sample :
  createAnchor (L "Session  Lifecycle: (v2)") = L "session-lifecycle-v2".
Proof. reflexivity. Qed.

Example split_sample :
  map (fun s => (number s, title s, startIndex s, endIndex s, map file (rules s)))
      (extract_sections (L "x" ++ [LF] ++ L "### 1. A" ++ [LF] ++ L "[r](rules/a.md)"
                         ++ [LF] ++ L "### 7. B"))
  = [(L "1", L "A", 2, 27, [L "a.md"]); (L "7", L "B", 27, 35, [])].
Proof. vm_compute. reflexivity. Qed.

(** ** Strings *)

Ltac char_cases :=
  unfold is_word, is_digit, is_space, is_line_terminator, in_range, char_eqb in *;
  repeat match goal with
         | |- context [N.leb ?a ?b] => destruct (N.leb_spec a b)
         | |- context [N.eqb ?a ?b] => destruct (N.eqb_spec a b)
         | H : context [N.leb ?a ?b] |- _ => destruct (N.leb_spec a b)
         | H : context [N.eqb ?a ?b] |- _ => destruct (N.eqb_spec a b)
         end;
  simpl in *; try congruence; try lia.

(** Decides each comparison of the goal from the bounds in the context. *)
Ltac eval_atoms :=
  repeat match goal with
         | |- context [N.leb ?a ?b] =>
             first [ rewrite (proj2 (N.leb_le a b)) by lia
                   | rewrite (proj2 (N.leb_gt a b)) by lia ]
         | |- context [N.eqb ?a ?b] =>
             first [ rewrite (proj2 (N.eqb_eq a b)) by lia
                   | rewrite (proj2 (N.eqb_neq a b)) by lia ]
         end.

Lemma str_eqb_eq (a b : str) : str_eqb a b = true <-> a = b.
Proof.
  revert b; induction a as [|x a IH]; intros [|y b]; simpl; split;
    try congruence; try reflexivity.
  - intros H. apply andb_true_iff in H. destruct H as [H1 H2].
    apply N.eqb_eq in H1. apply IH in H2. congruence.
  - intros H. injection H as -> ->. apply andb_true_iff. split.
    + apply N.eqb_refl.
    + now apply IH.
Qed.

Lemma str_eqb_refl (a : str) : str_eqb a a = true.
Proof. now apply str_eqb_eq. Qed.

Lemma str_eqb_neq (a b : str) : str_eqb a b = false <-> a <> b.
Proof.
  split.
  - intros H E. apply str_eqb_eq in E. congruence.
  - intros H. destruct (str_eqb a b) eqn:E; [|reflexivity].
    apply str_eqb_eq in E. contradiction.
Qed.

Lemma starts_with_app (p r : str) : starts_with p (p ++ r) = true.
Proof.
  induction p as [|x p IH]; simpl; [reflexivity|].
  unfold char_eqb. now rewrite N.eqb_refl.
Qed.

Lemma starts_with_split (p s : str) :
  starts_with p s = true <-> s = p ++ skipn (length p) s.
Proof.
  split.
  - revert s; induction p as [|x p IH]; intros s H; simpl in *; [reflexivity|].
    destruct s as [|y s]; [discriminate|].
    apply andb_true_iff in H. destruct H as [H1 H2].
    apply N.eqb_eq in H1. subst y. f_equal. now apply IH.
  - intros ->. apply starts_with_app.
Qed.

Lemma index_of_found (p s : str) (k : nat) :
  index_of p s = Some k ->
  starts_with p (skipn k s) = true
  /\ forall j, j < k -> starts_with p (skipn j s) = false.
Proof.
  revert k; induction s as [|c s IH]; intros k; simpl.
  - destruct (starts_with p []) eqn:E; [|discriminate].
    intros [= <-]. split; [assumption|intros j Hj; lia].
  - destruct (starts_with p (c :: s)) eqn:E.
    + intros [= <-]. split; [assumption|intros j Hj; lia].
    + destruct (index_of p s) as [k'|] eqn:E'; simpl; [|discriminate].
      intros [= <-]. destruct (IH k' eq_refl) as [H1 H2]. split; [assumption|].
      intros [|j] Hj; [assumption|]. apply H2. lia.
Qed.

Lemma index_of_none (p s : str) :
  index_of p s = None -> forall j, starts_with p (skipn j s) = false.
Proof.
  induction s as [|c s IH]; simpl.
  - destruct (starts_with p []) eqn:E; [discriminate|].
    intros _ [|j]; assumption.
  - destruct (starts_with p (c :: s)) eqn:E; [discriminate|].
    destruct (index_of p s) eqn:E'; simpl; [discriminate|].
    intros _ [|j]; [assumption|]. now apply IH.
Qed.

(** [contains] decides whether the text has an occurrence of the literal. *)
Lemma contains_occurs (p s : str) :
  contains p s = true <-> exists a b, s = a ++ p ++ b.
Proof.
  unfold contains. split.
  - destruct (index_of p s) as [k|] eqn:E; [|discriminate]. intros _.
    apply index_of_found in E. destruct E as [E _].
    apply starts_with_split in E.
    exists (firstn k s), (skipn (length p) (skipn k s)).
    rewrite <- E. symmetry. apply firstn_skipn.
  - intros (a & b & ->).
    destruct (index_of p (a ++ p ++ b)) eqn:E; [reflexivity|].
    pose proof (index_of_none _ _ E (length a)) as H.
    rewrite skipn_app, skipn_all, Nat.sub_diag in H. simpl in H.
    now rewrite starts_with_app in H.
Qed.

Lemma contains_tail (p s : str) (c : char) :
  contains p (c :: s) = false -> contains p s = false.
Proof.
  unfold contains. simpl.
  destruct (starts_with p (c :: s)); [discriminate|].
  destruct (index_of p s); simpl; [discriminate|reflexivity].
Qed.

(** ** The Anchor Generator *)

Lemma lower_unit_not_capital (c x : char) :
  In x (lower_unit c) -> in_range 65 90 x = false.
Proof.
  unfold lower_unit.
  destruct (in_range 65 90 c) eqn:E1;
    [|destruct (in_range 192 214 c || in_range 216 222 c) eqn:E2;
      [|destruct (N.eqb c 8490) eqn:E3; [|destruct (N.eqb c 304) eqn:E4]]];
    simpl; intros H; repeat (destruct H as [<-|H]; [|]); try contradiction;
    try (apply orb_true_iff in E2; destruct E2 as [E2|E2]);
    char_cases.
Qed.

Lemma toLowerCase_not_capital (s : str) :
  Forall (fun x => in_range 65 90 x = false) (toLowerCase s).
Proof.
  apply Forall_forall. intros x H. unfold toLowerCase in H.
  apply in_flat_map in H. destruct H as (c & _ & H).
  eapply lower_unit_not_capital; eassumption.
Qed.

Lemma hyphenate_runs_alphabet (s : str) :
  Forall (fun c => in_range 65 90 c = false) s ->
  Forall (fun c => (is_word c || is_space c || N.eqb c 45) = true) s ->
  forall b, Forall (fun c => is_anchor_char c = true) (hyphenate_runs b s).
Proof.
  induction s as [|c s IH]; intros H1 H2 b; simpl; [constructor|].
  inversion H1 as [|? ? Hc H1']; inversion H2 as [|? ? Hk H2']; subst.
  destruct (is_space c) eqn:Es.
  - destruct b; [now apply IH|]. constructor; [reflexivity|now apply IH].
  - constructor; [|now apply IH].
    unfold is_anchor_char. clear - Hc Hk. char_cases.
Qed.

Lemma createAnchor_alphabet (title : str) :
  Forall (fun c => is_anchor_char c = true) (createAnchor title).
Proof.
  unfold createAnchor, replace_space_runs, strip_non_word.
  apply hyphenate_runs_alphabet.
  - apply Forall_forall. intros x H. apply filter_In in H. destruct H as [H _].
    pose proof (toLowerCase_not_capital title) as F.
    rewrite Forall_forall in F. now apply F.
  - apply Forall_forall. intros x H. apply filter_In in H. now destruct H.
Qed.

Lemma anchor_char_fixed (c : char) :
  is_anchor_char c = true ->
  lower_unit c = [c] /\ (is_word c || is_space c || N.eqb c 45) = true
  /\ is_space c = false.
Proof.
  unfold is_anchor_char, is_digit, in_range. intros H.
  assert (R : (97 <= c <= 122 \/ 48 <= c <= 57 \/ c = 95 \/ c = 45)%N).
  { repeat (apply orb_true_iff in H; destruct H as [H|H]);
      try (apply andb_true_iff in H; destruct H as [H1 H2];
           apply N.leb_le in H1; apply N.leb_le in H2; lia);
      apply N.eqb_eq in H; lia. }
  clear H. unfold lower_unit, is_word, is_space, is_digit, in_range.
  destruct R as [R|[R|[R|R]]]; repeat split; eval_atoms; reflexivity.
Qed.

Lemma createAnchor_fixes_anchors (s : str) :
  Forall (fun c => is_anchor_char c = true) s -> createAnchor s = s.
Proof.
  unfold createAnchor, replace_space_runs, strip_non_word, toLowerCase.
  generalize false.
  induction s as [|c s IH]; intros b H; [reflexivity|].
  inversion H as [|? ? Hc H']; subst.
  destruct (anchor_char_fixed c Hc) as (E1 & E2 & E3).
  simpl. rewrite E1. simpl. rewrite E2. simpl. rewrite E3.
  f_equal. now apply IH.
Qed.

Lemma hyphenate_runs_in_run (s : str) :
  hyphenate_runs true s = hyphenate_runs false (drop_while is_space s).
Proof.
  induction s as [|c s IH]; simpl; [reflexivity|].
  destruct (is_space c) eqn:E; [assumption|].
  simpl. now rewrite E.
Qed.

(** C5: [createAnchor] is a function of the title alone, made of the three
    steps in order (lower case; removal of what is not a word character, white
    space or a hyphen; one hyphen for each maximal run of white space);
    applying it to an anchor gives the anchor back; and the anchor of
    "User ID Best Practices" is "user-id-best-practices". *)
Theorem createAnchor_idempotent :
  (forall title,
      createAnchor title
      = replace_space_runs
          (filter (fun c => is_word c || is_space c || N.eqb c 45) (toLowerCase title)))
  /\ (forall c s,
         replace_space_runs (c :: s)
         = if is_space c
           then 45%N :: replace_space_runs (drop_while is_space s)
           else c :: replace_space_runs s)
  /\ (forall title, createAnchor (createAnchor title) = createAnchor title)
  /\ createAnchor (L "User ID Best Practices") = L "user-id-best-practices".
Proof.
  split; [reflexivity|]. split; [|split].
  - intros c s. unfold replace_space_runs. simpl.
    destruct (is_space c); [|reflexivity].
    now rewrite hyphenate_runs_in_run.
  - intros title. apply createAnchor_fixes_anchors, createAnchor_alphabet.
  - reflexivity.
Qed.

(** ** The Frontmatter Parser without a frontmatter block *)

(** C6: a text that does not start with the line [---] is returned whole as
    the body, with an empty frontmatter map. *)
Theorem parseFrontmatter_without_opening (text : str) :
  starts_with fm_open text = false ->
  parseFrontmatter text = {| frontmatter := []; content := text |}.
Proof.
  intros H. unfold parseFrontmatter, frontmatterRegex_match. now rewrite H.
Qed.

Lemma parseFrontmatter_without_opening_witness :
  let text := L "# Title" ++ [LF] ++ L "--- is not on the first line" in
  starts_with fm_open text = false
  /\ parseFrontmatter text = {| frontmatter := []; content := text |}.
Proof.
  split; [reflexivity|].
  apply (parseFrontmatter_without_opening
           (L "# Title" ++ [LF] ++ L "--- is not on the first line")).
  reflexivity.
Defined.

(** C10: a text that starts with the line [---] and has no later line [---]
    followed by a newline (no [\n---\n] from the end of the opening line on)
    is returned whole as the body, with an empty frontmatter map. *)
Theorem parseFrontmatter_unterminated (text : str) :
  starts_with fm_open text = true ->
  contains fm_close (skipn 3 text) = false ->
  parseFrontmatter text = {| frontmatter := []; content := text |}.
Proof.
  intros Hopen Hclose.
  unfold parseFrontmatter, frontmatterRegex_match. rewrite Hopen.
  apply starts_with_split in Hopen.
  set (rest := skipn (length fm_open) text) in *.
  assert (E : skipn 3 text = LF :: rest) by (rewrite Hopen; reflexivity).
  rewrite E in Hclose. apply contains_tail in Hclose.
  unfold contains in Hclose.
  destruct (index_of fm_close rest); [discriminate|reflexivity].
Qed.

Lemma parseFrontmatter_unterminated_witness :
  let text := L "---" ++ [LF] ++ L "name: demo" ++ [LF] ++ L "---" in
  parseFrontmatter text = {| frontmatter := []; content := text |}.
Proof.
  apply (parseFrontmatter_unterminated
           (L "---" ++ [LF] ++ L "name: demo" ++ [LF] ++ L "---"));
    reflexivity.
Defined.

(** ** The Watch Driver *)

Module WatchProps.

Import WatchAgents.

Lemma rebuild_executed (env : Env) (s : St) :
  executed (rebuild env s) = executed s ++ [build_command].
Proof. unfold rebuild. destruct (child_ok env _ _); reflexivity. Qed.

Lemma rebuild_status (env : Env) (s : St) : status (rebuild env s) = status s.
Proof. unfold rebuild. destruct (child_ok env _ _); reflexivity. Qed.

Lemma endsWith_nil_md : endsWith [] (L ".md") = false.
Proof. reflexivity. Qed.

Lemma handle_executed (env : Env) (s : St) (e : event) :
  status s = Watching ->
  executed (handle env s e)
  = executed s ++ (if qualifies e then [build_command] else []).
Proof.
  intros Hs. unfold handle. rewrite Hs.
  destruct e as [[|] filename|type [[|c f]|]]; simpl;
    rewrite ?app_nil_r; try reflexivity.
  - now rewrite rebuild_executed.
  - destruct (endsWith (c :: f) (L ".md")); [|now rewrite app_nil_r].
    now rewrite rebuild_executed.
Qed.

Lemma handle_status (env : Env) (s : St) (e : event) :
  status (handle env s e) = status s.
Proof.
  unfold handle. destruct (status s) eqn:Hs; [|assumption].
  destruct e as [[|] filename|type [[|c f]|]]; simpl; try assumption.
  - now rewrite rebuild_status.
  - destruct (endsWith (c :: f) (L ".md")); [|assumption].
    now rewrite rebuild_status.
Qed.

Lemma fold_handle_status (env : Env) (events : list event) (s : St) :
  status (fold_left (handle env) events s) = status s.
Proof.
  revert s; induction events as [|e events IH]; intros s; simpl; [reflexivity|].
  rewrite IH. apply handle_status.
Qed.

Lemma fold_handle_executed (env : Env) (events : list event) (s : St) :
  status s = Watching ->
  executed (fold_left (handle env) events s)
  = executed s ++ repeat build_command (length (filter qualifies events)).
Proof.
  revert s; induction events as [|e events IH]; intros s Hs; simpl.
  - now rewrite app_nil_r.
  - rewrite IH by (now rewrite handle_status).
    rewrite handle_executed by assumption.
    destruct (qualifies e); simpl; rewrite <- app_assoc; reflexivity.
Qed.

Lemma startup_executed (env : Env) : executed (startup env) = [build_command].
Proof.
  unfold startup.
  destruct (watch_skill_error env); [|destruct (watch_rules_error env)];
    simpl; now rewrite rebuild_executed.
Qed.

Lemma startup_status (env : Env) :
  watch_skill_error env = None -> watch_rules_error env = None ->
  status (startup env) = Watching.
Proof.
  intros H1 H2. unfold startup. rewrite H1, H2. simpl.
  now rewrite rebuild_status.
Qed.

End WatchProps.

(** C8: the driver builds once on startup; once its two watchers are
    installed, an event adds one rebuild when it qualifies (a change of the
    source document, or an event in the rules directory on a file name ending
    in [.md]) and none otherwise, so that after any sequence of events the
    builds are one more than the qualifying events. *)
Theorem watch_one_rebuild_per_qualifying_event
    (env : WatchAgents.Env) (events : list WatchAgents.event) :
  WatchAgents.watch_skill_error env = None ->
  WatchAgents.watch_rules_error env = None ->
  WatchAgents.executed (WatchAgents.startup env) = [WatchAgents.build_command]
  /\ (forall e,
         WatchAgents.executed
           (WatchAgents.handle env (WatchAgents.drive env events) e)
         = WatchAgents.executed (WatchAgents.drive env events)
             ++ (if qualifies e then [WatchAgents.build_command] else []))
  /\ length (WatchAgents.executed (WatchAgents.drive env events))
     = 1 + length (filter qualifies events).
Proof.
  intros H1 H2. pose proof (WatchProps.startup_status env H1 H2) as Hs.
  split; [apply WatchProps.startup_executed|]. split.
  - intros e. apply WatchProps.handle_executed.
    unfold WatchAgents.drive. now rewrite WatchProps.fold_handle_status.
  - unfold WatchAgents.drive.
    rewrite WatchProps.fold_handle_executed by assumption.
    rewrite WatchProps.startup_executed. simpl. now rewrite repeat_length.
Qed.

Lemma watch_one_rebuild_per_qualifying_event_witness :
  length (WatchAgents.executed (WatchAgents.drive committed_env sample_events)) = 3.
Proof.
  exact (proj2 (proj2 (watch_one_rebuild_per_qualifying_event
                         committed_env sample_events eq_refl eq_refl))).
Defined.

Lemma rebuild_failure (env : WatchAgents.Env) (s : WatchAgents.St) :
  WatchAgents.child_ok env (length (WatchAgents.executed s)) WatchAgents.build_command
  = false ->
  exists line,
    WatchAgents.console (WatchAgents.rebuild env s)
    = WatchAgents.console s ++ [line; build_failed_line].
Proof.
  intros H. unfold WatchAgents.rebuild. rewrite H. simpl.
  eexists. rewrite <- app_assoc. reflexivity.
Qed.

(** C9: every rebuild runs the command [node scripts/build-agents.js]; the
    path names neither the build script [scripts/build-agents.cjs] nor any
    other script of the repository, also after the extensions [node] tries.
    Where a child process succeeds only if it runs a script of the
    repository, every rebuild ends with the line of a failed build, and the
    driver is left watching. *)
Theorem watch_rebuild_never_runs_the_composer
    (env : WatchAgents.Env) (events : list WatchAgents.event) :
  (forall n command,
      WatchAgents.child_ok env n command = true ->
      WatchAgents.runs_repository_script command = true) ->
  WatchAgents.build_command = L "node scripts/build-agents.js"
  /\ WatchAgents.runs_composer WatchAgents.build_command = false
  /\ WatchAgents.runs_repository_script WatchAgents.build_command = false
  /\ Forall (fun command => command = WatchAgents.build_command
                            /\ WatchAgents.runs_composer command = false)
            (WatchAgents.executed (WatchAgents.drive env events))
  /\ (forall s, exists line,
         WatchAgents.console (WatchAgents.rebuild env s)
         = WatchAgents.console s ++ [line; build_failed_line]
         /\ WatchAgents.status (WatchAgents.rebuild env s) = WatchAgents.status s)
  /\ WatchAgents.status (WatchAgents.drive env events)
     = WatchAgents.status (WatchAgents.startup env).
Proof.
  intros Henv.
  assert (Hfail : forall n, WatchAgents.child_ok env n WatchAgents.build_command = false).
  { intros n. destruct (WatchAgents.child_ok env n WatchAgents.build_command) eqn:E;
      [|reflexivity].
    apply Henv in E. vm_compute in E. discriminate. }
  split; [reflexivity|]. split; [reflexivity|]. split; [reflexivity|].
  split; [|split].
  - unfold WatchAgents.drive.
    assert (G : forall l s,
               Forall (fun command => command = WatchAgents.build_command
                                      /\ WatchAgents.runs_composer command = false)
                      (WatchAgents.executed s) ->
               Forall (fun command => command = WatchAgents.build_command
                                      /\ WatchAgents.runs_composer command = false)
                      (WatchAgents.executed (fold_left (WatchAgents.handle env) l s))).
    { induction l as [|e l IH]; intros s Hs; simpl; [assumption|].
      apply IH. unfold WatchAgents.handle.
      destruct (WatchAgents.status s); [|assumption].
      destruct e as [[|] filename|type [[|c f]|]]; simpl; try assumption.
      - rewrite WatchProps.rebuild_executed. apply Forall_app. split; [assumption|].
        constructor; [split; reflexivity|constructor].
      - destruct (endsWith (c :: f) (L ".md")); [|assumption].
        rewrite WatchProps.rebuild_executed. apply Forall_app. split; [assumption|].
        constructor; [split; reflexivity|constructor]. }
    apply G. rewrite WatchProps.startup_executed.
    constructor; [split; reflexivity|constructor].
  - intros s. destruct (rebuild_failure env s (Hfail _)) as [line Hline].
    exists line. split; [assumption|apply WatchProps.rebuild_status].
  - unfold WatchAgents.drive. apply WatchProps.fold_handle_status.
Qed.

Lemma watch_rebuild_never_runs_the_composer_witness :
  Forall (fun command => command = WatchAgents.build_command
                         /\ WatchAgents.runs_composer command = false)
         (WatchAgents.executed (WatchAgents.drive committed_env sample_events))
  /\ WatchAgents.status (WatchAgents.drive committed_env sample_events)
     = WatchAgents.Watching.
Proof.
  pose proof (watch_rebuild_never_runs_the_composer committed_env sample_events
                (fun _ command H => H)) as H.
  split; [exact (proj1 (proj2 (proj2 (proj2 H))))|].
  exact (proj2 (proj2 (proj2 (proj2 (proj2 H))))).
Defined.

(** ** The effects of the composer, as additions to the state *)

Arguments L : simpl never.
Arguments decimal : simpl never.

Lemma extend_nil (s : St) : extend s delta_nil = s.
Proof.
  destruct s. unfold extend. simpl. now rewrite !app_nil_r, Nat.add_0_r.
Qed.

Lemma extend_app (s : St) (d1 d2 : Delta) :
  extend (extend s d1) d2 = extend s (delta_app d1 d2).
Proof.
  unfold extend. simpl. now rewrite !app_assoc, Nat.add_assoc.
Qed.

Lemma appends_ret : appends (ret tt) delta_nil.
Proof. intros s. unfold ret. now rewrite extend_nil. Qed.

Lemma appends_bind (m1 m2 : M unit) (d1 d2 : Delta) :
  appends m1 d1 -> appends m2 d2 -> appends (m1 ;;; m2) (delta_app d1 d2).
Proof.
  intros H1 H2 s. unfold bind. rewrite H1, H2. now rewrite extend_app.
Qed.

Lemma appends_log (message : str) (c : color) :
  appends (log message c)
          {| d_console := [colors c ++ message ++ colors reset];
             d_output := []; d_count := 0 |}.
Proof.
  intros s. unfold log, extend. simpl. now rewrite app_nil_r, Nat.add_0_r.
Qed.

Lemma appends_emit (text : str) :
  appends (emit text) {| d_console := []; d_output := text; d_count := 0 |}.
Proof.
  intros s. unfold emit, extend. simpl. now rewrite app_nil_r, Nat.add_0_r.
Qed.

Lemma appends_count :
  appends count_rule {| d_console := []; d_output := []; d_count := 1 |}.
Proof.
  intros s. unfold count_rule, extend. simpl. now rewrite !app_nil_r, Nat.add_1_r.
Qed.

Lemma appends_eq (m : M unit) (d d' : Delta) : appends m d -> d = d' -> appends m d'.
Proof. now intros H <-. Qed.

(** [forEach] over computations that only add to the state. *)
Lemma appends_forEach_from {A} (f : A -> nat -> M unit) (g : nat -> A -> Delta)
    (l : list A) :
  forall i,
    (forall k x, nth_error l k = Some x -> appends (f x (i + k)) (g (S (i + k)) x)) ->
    appends (forEach_from f l i)
            (fold_right delta_app delta_nil
               (map (fun jx => g (fst jx) (snd jx)) (combine (seq (S i) (length l)) l))).
Proof.
  induction l as [|x l IH]; intros i H; simpl.
  - apply appends_ret.
  - apply appends_bind.
    + specialize (H 0 x eq_refl). now rewrite Nat.add_0_r in H.
    + apply IH. intros k y Hk. specialize (H (S k) y Hk).
      now rewrite Nat.add_succ_r in H.
Qed.

Lemma fold_delta_output {A} (g : A -> Delta) (l : list A) :
  d_output (fold_right delta_app delta_nil (map g l))
  = concat (map (fun x => d_output (g x)) l).
Proof. induction l as [|x l IH]; simpl; [reflexivity|]. now rewrite IH. Qed.

Lemma fold_delta_console {A} (g : A -> Delta) (l : list A) :
  d_console (fold_right delta_app delta_nil (map g l))
  = concat (map (fun x => d_console (g x)) l).
Proof. induction l as [|x l IH]; simpl; [reflexivity|]. now rewrite IH. Qed.

Lemma bind_appends {B} (m : M unit) (d : Delta) (k : unit -> M B) (s : St) :
  appends m d -> bind m k s = k tt (extend s d).
Proof. intros H. unfold bind. now rewrite H. Qed.

Lemma bind_ret {A B} (a : A) (k : A -> M B) (s : St) : bind (ret a) k s = k a s.
Proof. reflexivity. Qed.

Lemma bind_assoc {A B C} (m : M A) (f : A -> M B) (g : B -> M C) (s : St) :
  bind (bind m f) g s = bind m (fun x => bind (f x) g) s.
Proof. unfold bind. destruct (m s); reflexivity. Qed.

Ltac step H := rewrite (bind_appends _ _ H); cbv beta zeta.

Lemma delta_eq (c c' : list str) (o o' : str) (n n' : nat) :
  c = c' -> o = o' -> n = n' ->
  {| d_console := c; d_output := o; d_count := n |}
  = {| d_console := c'; d_output := o'; d_count := n' |}.
Proof. now intros -> -> ->. Qed.

Lemma appends_if_emit (b : bool) (text : str) :
  appends (if b then emit text else ret tt)
          {| d_console := []; d_output := if b then text else []; d_count := 0 |}.
Proof. destruct b; [apply appends_emit|apply appends_ret]. Qed.

(** ** One rule of the composed document *)

Lemma truthy_or_else (v : option str) :
  truthy v = true -> exists c r, v = Some (c :: r) /\ or_else v [] = c :: r.
Proof.
  destruct v as [[|c r]|]; simpl; try discriminate. intros _. now exists c, r.
Qed.

Lemma process_rule_appends (w : World) (section : Section) (rule : RuleRef)
    (ruleIndex : nat) :
  readable w rule = true ->
  appends (process_rule w section rule ruleIndex)
          (rule_delta w section (S ruleIndex) rule).
Proof.
  unfold readable, rule_delta, rule_text, rule_log, rule_count, process_rule, readRuleFile.
  destruct (rule_file w (file rule)) as [|text|message]; intros Hr s; [| |discriminate].
  - step (appends_log (L "  " ++ bullet ++ L " Processing: " ++ file rule) blue).
    rewrite bind_assoc.
    step (appends_log (warning_sign ++ L "  Warning: Rule file not found: " ++ file rule)
                      yellow).
    rewrite bind_ret. cbv beta iota.
    step (appends_emit (rule_heading section ruleIndex rule)).
    rewrite (appends_emit _ _). rewrite !extend_app. do 2 f_equal.
    unfold delta_app. cbn [d_console d_output d_count].
    apply delta_eq; [reflexivity| |reflexivity].
    unfold missing_rule_text, rule_heading, rule_heading_line, not_found_notice.
    rewrite Nat.add_1_r, !app_nil_l, <- !app_assoc. reflexivity.
  - step (appends_log (L "  " ++ bullet ++ L " Processing: " ++ file rule) blue).
    rewrite bind_ret. cbv beta iota. cbn [rule_frontmatter rule_content].
    set (fm := frontmatter (parseFrontmatter text)).
    step (appends_emit (rule_heading section ruleIndex rule)).
    match goal with |- context [bind (emit ?t)] => step (appends_emit t) end.
    match goal with
    | |- context [bind (if ?b then emit ?t else ret tt)] => step (appends_if_emit b t)
    end.
    match goal with
    | |- context [bind (if ?b then emit ?t else ret tt)] => step (appends_if_emit b t)
    end.
    match goal with |- context [bind (emit ?t)] => step (appends_emit t) end.
    match goal with |- context [bind (emit ?t)] => step (appends_emit t) end.
    rewrite (appends_count _). rewrite !extend_app. do 2 f_equal.
    unfold delta_app. cbn [d_console d_output d_count].
    apply delta_eq; [reflexivity| |reflexivity].
    unfold resolved_rule_text, impact_line, description_line, rule_heading,
      rule_heading_line, anchor_marker, separator. fold fm.
    rewrite Nat.add_1_r, !app_nil_l, !app_nil_r, <- !app_assoc.
    destruct (get fm (L "impact")) as [[|c1 v1]|];
      destruct (get fm (L "description")) as [[|c2 v2]|];
      cbn [truthy or_else]; rewrite <- ?app_assoc, ?app_nil_l;
      repeat (cbn [app]; rewrite <- ?app_assoc); reflexivity.
Qed.

Example sample_world_sections :
  extract_sections (content (parseFrontmatter
     (match skill_file (sample_world Absent) with File text => text | _ => [] end)))
  = [sample_section].
Proof. vm_compute. reflexivity. Qed.

(** C3, as stated, fails: the rule of the sample document whose file is
    missing is rendered as its heading and the notice, with no anchor marker
    between them or anywhere in the composed document. *)
Lemma missing_rule_without_anchor_marker :
  output (final_state (process_rule (sample_world Absent) sample_section sample_rule 0 initial))
  = L "### 1.1. My Rule" ++ LFLF ++ L "_Rule file not found: my-rule.md_" ++ LFLF
  /\ output (final_state (process_rule (sample_world Absent) sample_section sample_rule 0 initial))
     <> L "### 1.1. My Rule" ++ LFLF ++ anchor_marker (L "my-rule")
          ++ L "_Rule file not found: my-rule.md_" ++ LFLF
  /\ match outfile (fst (run (sample_world Absent))) with
     | Some text =>
         contains (L "### 1.1. My Rule" ++ LFLF ++ L "_Rule file not found: my-rule.md_")
                  text = true
         /\ contains (anchor_marker (L "my-rule")) text = false
     | None => False
     end.
Proof.
  split; [vm_compute; reflexivity|].
  split; [vm_compute; discriminate|].
  vm_compute. split; reflexivity.
Qed.

(** C3, amended: a rule whose file is missing adds to the document its
    heading and then the italic notice, and nothing else: no anchor marker and
    no separator; it is not counted as processed.  A rule whose file is found
    adds its heading, its anchor marker, the optional badge and description,
    the trimmed body and then the separator. *)
Theorem missing_rule_rendering (w : World) (section : Section) (rule : RuleRef)
    (ruleIndex : nat) (s : St) :
  rule_file w (file rule) = Absent ->
  (exists s',
      process_rule w section rule ruleIndex s = Ret tt s'
      /\ output s'
         = output s
             ++ (L "### " ++ number section ++ L "." ++ decimal (ruleIndex + 1) ++ L ". "
                   ++ rule_title rule ++ LFLF)
             ++ (L "_Rule file not found: " ++ file rule ++ L "_" ++ LFLF)
      /\ processedRules s' = processedRules s)
  /\ (forall w' text,
         rule_file w' (file rule) = File text ->
         exists s' badges,
           process_rule w' section rule ruleIndex s = Ret tt s'
           /\ output s'
              = output s
                  ++ (L "### " ++ number section ++ L "." ++ decimal (ruleIndex + 1)
                        ++ L ". " ++ rule_title rule ++ LFLF)
                  ++ (L "<a name=" ++ [34%N] ++ rule_anchor rule ++ [34%N] ++ L "></a>" ++ LFLF)
                  ++ badges
                  ++ (trim (content (parseFrontmatter text)) ++ LFLF)
                  ++ (L "---" ++ LFLF)).
Proof.
  intros Habs. split.
  - assert (Hr : readable w rule = true) by (unfold readable; now rewrite Habs).
    pose proof (@process_rule_appends w section rule ruleIndex Hr s) as H.
    eexists. split; [exact H|].
    unfold rule_delta, rule_text, rule_count, extend. rewrite Habs.
    cbn [output processedRules d_output d_count].
    split; [|apply Nat.add_0_r].
    unfold missing_rule_text, rule_heading_line, not_found_notice.
    now rewrite Nat.add_1_r, <- !app_assoc.
  - intros w' text Hfile.
    assert (Hr : readable w' rule = true) by (unfold readable; now rewrite Hfile).
    pose proof (@process_rule_appends w' section rule ruleIndex Hr s) as H.
    exists (extend s (rule_delta w' section (S ruleIndex) rule)),
           (impact_line (frontmatter (parseFrontmatter text))
              ++ description_line (frontmatter (parseFrontmatter text))).
    split; [exact H|].
    unfold rule_delta, rule_text, extend. rewrite Hfile.
    cbn [output d_output].
    unfold resolved_rule_text, rule_heading_line, anchor_marker, separator.
    now rewrite Nat.add_1_r, <- !app_assoc.
Qed.

Lemma missing_rule_rendering_witness :
  exists s',
    process_rule (sample_world Absent) sample_section sample_rule 0 initial = Ret tt s'
    /\ output s'
       = output initial
           ++ (L "### " ++ number sample_section ++ L "." ++ decimal (0 + 1) ++ L ". "
                 ++ rule_title sample_rule ++ LFLF)
           ++ (L "_Rule file not found: " ++ file sample_rule ++ L "_" ++ LFLF)
    /\ processedRules s' = processedRules initial.
Proof.
  exact (proj1 (missing_rule_rendering (sample_world Absent) sample_section sample_rule
                  0 initial eq_refl)).
Defined.

(** ** The Section Splitter *)

Lemma take_while_split (p : char -> bool) (s : str) :
  s = take_while p s ++ skipn (length (take_while p s)) s.
Proof.
  induction s as [|c s IH]; simpl; [reflexivity|].
  destruct (p c); simpl; [now rewrite <- IH|reflexivity].
Qed.

Lemma take_while_Forall (p : char -> bool) (s : str) :
  Forall (fun c => p c = true) (take_while p s).
Proof.
  induction s as [|c s IH]; simpl; [constructor|].
  destruct (p c) eqn:E; constructor; assumption.
Qed.

(** A match is a non-empty prefix without line terminators. *)
Lemma sectionRegex_at_shape (prev : option char) (s num ttl : str) (len : nat) :
  sectionRegex_at prev s = Some (num, ttl, len) ->
  exists c t r,
    s = (c :: t) ++ r /\ len = S (length t)
    /\ Forall (fun x => not_terminator x = true) (c :: t).
Proof.
  unfold sectionRegex_at.
  destruct (at_line_start prev && starts_with (L "### ") s) eqn:E1; [|discriminate].
  apply andb_true_iff in E1. destruct E1 as [_ E1].
  apply starts_with_split in E1. change (length (L "### ")) with 4 in E1.
  set (s1 := skipn 4 s) in *.
  set (n := take_while is_digit s1).
  set (s2 := skipn (length n) s1).
  destruct ((0 <? length n) && starts_with (L ". ") s2) eqn:E2; [|discriminate].
  apply andb_true_iff in E2. destruct E2 as [_ E2].
  apply starts_with_split in E2. change (length (L ". ")) with 2 in E2.
  set (s3 := skipn 2 s2) in *.
  set (tt := take_while (fun c => negb (is_line_terminator c)) s3).
  destruct (0 <? length tt) eqn:E3; [|discriminate].
  intros [= <- <- <-].
  pose proof (take_while_split is_digit s1) as D1. fold n in D1. fold s2 in D1.
  pose proof (take_while_split (fun c => negb (is_line_terminator c)) s3) as D3.
  fold tt in D3.
  pose proof (take_while_Forall is_digit s1) as F1. fold n in F1.
  pose proof (take_while_Forall (fun c => negb (is_line_terminator c)) s3) as F3.
  fold tt in F3.
  exists 35%N, (L "## " ++ n ++ L ". " ++ tt), (skipn (length tt) s3).
  split; [|split].
  - rewrite E1 at 1. rewrite D1 at 1. rewrite E2 at 1. rewrite D3 at 1.
    change (L "### ") with (35%N :: L "## "). cbn [app].
    now rewrite <- !app_assoc.
  - rewrite !length_app.
    change (length (L "## ")) with 3. change (length (L ". ")) with 2. lia.
  - constructor; [reflexivity|].
    apply Forall_app. split; [repeat constructor|].
    apply Forall_app. split.
    + eapply Forall_impl; [|exact F1]. intros a Ha. unfold not_terminator.
      clear - Ha. char_cases.
    + apply Forall_app. split; [repeat constructor|exact F3].
Qed.

Lemma sectionRegex_at_not_line_start (c : char) (s : str) :
  not_terminator c = true -> sectionRegex_at (Some c) s = None.
Proof.
  unfold not_terminator, sectionRegex_at. simpl. intros H.
  apply negb_true_iff in H. now rewrite H.
Qed.

Lemma last_cons_default (a : str) (c d : char) : a <> [] -> last (c :: a) d = last a d.
Proof. destruct a; [contradiction|reflexivity]. Qed.

Lemma last_default_irrelevant (a : str) (d d' : char) : a <> [] -> last a d = last a d'.
Proof.
  induction a as [|x a IH]; [contradiction|]. intros _.
  destruct a as [|y a]; [reflexivity|].
  change (last (y :: a) d = last (y :: a) d'). apply IH. discriminate.
Qed.

(** No heading line starts inside a run without line terminators. *)
Lemma matches_scan_skip (t r : str) :
  forall c pos,
    Forall (fun x => not_terminator x = true) (c :: t) ->
    matches_scan (Some c) (t ++ r) pos = matches_scan (Some (last t c)) r (pos + length t).
Proof.
  induction t as [|d t IH]; intros c pos H.
  - simpl. now rewrite Nat.add_0_r.
  - inversion H as [|? ? Hc Ht]; subst.
    change ((d :: t) ++ r) with (d :: t ++ r).
    cbn [matches_scan]. rewrite sectionRegex_at_not_line_start by assumption.
    cbn [app].
    rewrite IH by assumption.
    replace (pos + length (d :: t)) with (S pos + length t) by (simpl; lia).
    do 2 f_equal. destruct t as [|e t]; [reflexivity|].
    rewrite (@last_cons_default (e :: t) d c) by discriminate.
    apply last_default_irrelevant. discriminate.
Qed.

(** What [exec] finds, against the scan of every position. *)
Lemma sectionRegex_search_spec (s : str) :
  forall prev pos,
    match sectionRegex_search prev s pos with
    | None => matches_scan prev s pos = []
    | Some m =>
        exists a r,
          s = a ++ r /\ a <> []
          /\ pos <= m_index m < m_lastIndex m
          /\ m_lastIndex m = pos + length a
          /\ matches_scan prev s pos
             = (m_index m, m_number m, m_title m)
                 :: matches_scan (Some (last a 0%N)) r (pos + length a)
    end.
Proof.
  induction s as [|c s IH]; intros prev pos.
  - cbn [sectionRegex_search matches_scan].
    destruct (sectionRegex_at prev []) as [[[num ttl] len]|] eqn:E; [|reflexivity].
    apply sectionRegex_at_shape in E. destruct E as (c & t & r & E & _). discriminate.
  - cbn [sectionRegex_search matches_scan].
    destruct (sectionRegex_at prev (c :: s)) as [[[num ttl] len]|] eqn:E.
    + destruct (sectionRegex_at_shape _ _ E) as (c' & t & r & Es & Hlen & Hnt).
      injection Es as <- Es. subst s.
      exists (c :: t), r. simpl m_index. simpl m_lastIndex. simpl m_number. simpl m_title.
      repeat split; try lia; try discriminate.
      * simpl. lia.
      * simpl app. rewrite matches_scan_skip by assumption.
        replace (pos + length (c :: t)) with (S pos + length t) by (simpl; lia).
        do 2 f_equal. destruct t as [|d t]; [reflexivity|].
        rewrite (@last_cons_default (d :: t) c 0%N) by discriminate.
        rewrite (@last_default_irrelevant (d :: t) c 0%N) by discriminate.
        reflexivity.
    + simpl app. specialize (IH (Some c) (S pos)).
      destruct (sectionRegex_search (Some c) s (S pos)) as [m|]; [|assumption].
      destruct IH as (a & r & Es & Ha & Hidx & Hlast & Hscan).
      exists (c :: a), r. repeat split; try lia; try discriminate.
      * simpl. now rewrite Es.
      * simpl. lia.
      * rewrite Hscan. rewrite (@last_cons_default a c 0%N) by assumption.
        replace (pos + length (c :: a)) with (S pos + length a) by (simpl; lia).
        reflexivity.
Qed.

Lemma skipn_app_exact {A} (l a r : list A) (p : nat) :
  skipn p l = a ++ r -> skipn (p + length a) l = r.
Proof.
  intros H. rewrite Nat.add_comm, <- skipn_skipn, H.
  rewrite skipn_app, skipn_all, Nat.sub_diag. reflexivity.
Qed.

Lemma nth_error_last_of_skipn (l a r : str) (p : nat) :
  skipn p l = a ++ r -> a <> [] ->
  nth_error l (p + length a - 1) = Some (last a 0%N).
Proof.
  intros H Ha.
  assert (E : nth_error (skipn p l) (length a - 1) = Some (last a 0%N)).
  { rewrite H. destruct a as [|x a]; [contradiction|].
    rewrite nth_error_app1 by (simpl; lia).
    clear. simpl length. rewrite Nat.sub_1_r. simpl pred.
    revert x; induction a as [|y a IH]; intros x; [reflexivity|].
    change (nth_error (y :: a) (length a) = Some (last (y :: a) 0%N)). apply IH. }
  rewrite nth_error_skipn in E.
  replace (p + length a - 1) with (p + (length a - 1)); [assumption|].
  destruct a; [contradiction|simpl; lia].
Qed.

Lemma sectionRegex_exec_spec (body : str) (p : nat) :
  match sectionRegex_exec body p with
  | None => scan_at body p = []
  | Some m =>
      p <= m_index m < m_lastIndex m
      /\ m_lastIndex m <= p + length (skipn p body)
      /\ scan_at body p = (m_index m, m_number m, m_title m) :: scan_at body (m_lastIndex m)
  end.
Proof.
  unfold sectionRegex_exec, scan_at.
  pose proof (sectionRegex_search_spec (skipn p body)
                (match p with 0 => None | S i => nth_error body i end) p) as H.
  destruct (sectionRegex_search _ (skipn p body) p) as [m|]; [|assumption].
  destruct H as (a & r & Es & Ha & Hidx & Hlast & Hscan).
  split; [assumption|]. split.
  - rewrite Es, length_app. lia.
  - rewrite Hscan, Hlast. f_equal.
    rewrite (@skipn_app_exact _ _ _ _ _ Es).
    destruct (p + length a) as [|i] eqn:Ei.
    + destruct a; [contradiction|simpl in Ei; lia].
    + replace i with (p + length a - 1) by lia.
      now rewrite (@nth_error_last_of_skipn _ _ _ _ Es Ha).
Qed.

Lemma set_last_endIndex_snoc (acc : list Section) (s : Section) (e : nat) :
  set_last_endIndex (acc ++ [s]) e
  = acc ++ [{| number := number s; title := title s; anchor := anchor s;
               startIndex := startIndex s; endIndex := e; rules := rules s |}].
Proof.
  induction acc as [|x acc IH]; [reflexivity|].
  simpl app. cbn [set_last_endIndex]. rewrite IH.
  destruct (acc ++ [s]) eqn:E; [|reflexivity].
  destruct acc; discriminate.
Qed.

(** The loop reads every heading line that remains, whatever fuel is left
    above the length of the text that remains. *)
Lemma split_loop_spec (body : str) (fuel : nat) :
  forall p acc,
    length (skipn p body) < fuel ->
    split_loop fuel body p acc = close_with acc (scan_at body p) (length body).
Proof.
  induction fuel as [|fuel IH]; intros p acc Hfuel; [lia|].
  cbn [split_loop].
  pose proof (sectionRegex_exec_spec body p) as H.
  destruct (sectionRegex_exec body p) as [m|].
  - destruct H as (Hidx & Hlast & Hscan).
    rewrite IH by (rewrite length_skipn in *; lia).
    rewrite Hscan. unfold close_with at 2. cbn [build_sections].
    unfold close_with.
    destruct (scan_at body (m_lastIndex m)) as [|[[j num] ttl] rest].
    + cbn [build_sections]. now rewrite app_nil_r.
    + rewrite set_last_endIndex_snoc. rewrite <- app_assoc. reflexivity.
  - rewrite H. unfold close_with. simpl. now rewrite app_nil_r.
Qed.

Lemma split_sections_build (body : str) :
  split_sections body = build_sections (heading_lines body) (length body).
Proof.
  unfold split_sections. rewrite split_loop_spec by (simpl; lia).
  unfold close_with, scan_at, heading_lines. simpl skipn.
  destruct (matches_scan None body 0) as [|[[j num] ttl] rest]; reflexivity.
Qed.

Lemma increasing_weaken (l : list nat) (lo lo' hi : nat) :
  lo' <= lo -> increasing lo l hi -> increasing lo' l hi.
Proof. destruct l; simpl; [trivial|]. intros H [H1 H2]. split; [lia|assumption]. Qed.

Lemma matches_scan_increasing (s : str) :
  forall prev pos,
    increasing pos (map position (matches_scan prev s pos)) (pos + length s).
Proof.
  induction s as [|c s IH]; intros prev pos; cbn [matches_scan].
  - destruct (sectionRegex_at prev []) as [[[num ttl] len]|] eqn:E; [|exact I].
    apply sectionRegex_at_shape in E. destruct E as (c & t & r & E & _). discriminate.
  - specialize (IH (Some c) (S pos)).
    replace (pos + length (c :: s)) with (S pos + length s) by (simpl; lia).
    destruct (sectionRegex_at prev (c :: s)) as [[[num ttl] len]|];
      cbn [app map increasing].
    + split; [unfold position; cbn [fst]; lia|exact IH].
    + eapply increasing_weaken; [|exact IH]. lia.
Qed.

Lemma build_sections_lines (ms : list (nat * str * str)) (n : nat) :
  map (fun s => (startIndex s, number s, title s)) (build_sections ms n) = ms.
Proof.
  induction ms as [|[[i num] ttl] ms IH]; simpl; [reflexivity|]. now rewrite IH.
Qed.

Lemma build_sections_chained (ms : list (nat * str * str)) (n : nat) :
  forall lo, increasing lo (map position ms) n -> chained n (build_sections ms n).
Proof.
  induction ms as [|[[i num] ttl] ms IH]; intros lo H; simpl; [exact I|].
  destruct H as [Hi H]. unfold position in Hi. simpl in Hi.
  split; [|split].
  - destruct ms as [|[[j num'] ttl'] ms]; [lia|].
    destruct H as [Hj _]. unfold position in Hj. simpl in Hj. lia.
  - destruct ms as [|[[j num'] ttl'] ms]; reflexivity.
  - eapply IH. exact H.
Qed.

Lemma build_sections_spans (body : str) (ms : list (nat * str * str)) :
  forall lo,
    increasing lo (map position ms) (length body) ->
    concat (map (span body) (build_sections ms (length body)))
    = skipn (hd (length body) (map position ms)) body.
Proof.
  induction ms as [|[[i num] ttl] ms IH]; intros lo H.
  - simpl. now rewrite skipn_all.
  - destruct H as [Hi H]. unfold position in Hi. simpl in Hi.
    cbn [build_sections map concat]. rewrite (IH _ H).
    unfold span, slice. cbn [startIndex endIndex hd position fst].
    assert (E : match ms with
                | [] => length body
                | (j, _, _) :: _ => j
                end = hd (length body) (map position ms)).
    { destruct ms as [|[[j num'] ttl'] ms]; reflexivity. }
    rewrite E. set (e := hd (length body) (map position ms)).
    assert (He : i <= e).
    { subst e. destruct ms as [|[[j num'] ttl'] ms]; simpl; [clear - Hi; lia|].
      destruct H as [Hj _]. unfold position in *. simpl in *. clear - Hj. lia. }
    replace (skipn e body) with (skipn (e - i) (skipn i body)).
    + apply firstn_skipn.
    + rewrite skipn_skipn. f_equal. lia.
Qed.

(** C2, as stated, fails: the text before the first heading line belongs to
    no section, so the spans do not cover the body. *)
Lemma split_sections_leave_the_preamble :
  heading_starts (L "Intro" ++ [LF] ++ L "### 1. A") = [6]
  /\ map (fun s => (startIndex s, endIndex s))
         (split_sections (L "Intro" ++ [LF] ++ L "### 1. A"))
     = [(6, 14)]
  /\ concat (map (span (L "Intro" ++ [LF] ++ L "### 1. A"))
                 (split_sections (L "Intro" ++ [LF] ++ L "### 1. A")))
     <> L "Intro" ++ [LF] ++ L "### 1. A".
Proof.
  split; [vm_compute; reflexivity|]. split; [vm_compute; reflexivity|].
  vm_compute. discriminate.
Qed.

(** C2, amended: the sections are the heading lines of the body, one section
    for each and in source order (none when no line matches); each range is
    not empty and ends where the next starts, the last at the end of the
    body; the spans, one after the other, are the body from the start of the
    first heading line on, and the text before it is in no span. *)
Theorem split_sections_partition (body : str) :
  map (fun s => (startIndex s, number s, title s)) (split_sections body)
  = heading_lines body
  /\ length (split_sections body) = length (heading_starts body)
  /\ chained (length body) (split_sections body)
  /\ body
     = firstn (hd (length body) (heading_starts body)) body
         ++ concat (map (span body) (split_sections body)).
Proof.
  rewrite split_sections_build.
  pose proof (matches_scan_increasing body None 0) as Hinc.
  fold (heading_lines body) in Hinc. simpl in Hinc.
  split; [apply build_sections_lines|]. split; [|split].
  - unfold heading_starts. rewrite length_map.
    rewrite <- (build_sections_lines (heading_lines body) (length body)) at 2.
    now rewrite length_map.
  - eapply build_sections_chained. exact Hinc.
  - rewrite (@build_sections_spans body _ _ Hinc).
    symmetry. apply firstn_skipn.
Qed.

(** ** The composer, end to end *)

Lemma appends_forEach_simple {A} (f : A -> nat -> M unit) (g : A -> Delta) (l : list A) :
  (forall x i, In x l -> appends (f x i) (g x)) ->
  forall i, appends (forEach_from f l i) (fold_right delta_app delta_nil (map g l)).
Proof.
  induction l as [|x l IH]; intros H i; simpl.
  - apply appends_ret.
  - apply appends_bind.
    + apply H. now left.
    + apply IH. intros y j Hy. apply H. now right.
Qed.

Lemma process_section_appends (w : World) (section : Section) (sectionIndex : nat) :
  forallb (readable w) (rules section) = true ->
  appends (process_section w section sectionIndex) (section_delta w section).
Proof.
  intros Hr. unfold process_section, section_delta.
  eapply appends_eq.
  - apply appends_bind; [apply appends_emit|].
    apply appends_bind; [apply appends_emit|].
    unfold forEach.
    apply (appends_forEach_from (process_rule w section) (rule_delta w section)).
    intros k rule Hk. apply process_rule_appends.
    rewrite forallb_forall in Hr. apply Hr. eapply nth_error_In. exact Hk.
  - unfold delta_app, rules_delta, numbered. cbn [d_console d_output d_count].
    apply delta_eq; [reflexivity| |reflexivity].
    unfold section_heading_line, anchor_marker. rewrite <- !app_assoc. reflexivity.
Qed.

Lemma process_sections_appends (w : World) (sections : list Section) :
  all_readable w sections = true ->
  appends (forEach (process_section w) sections) (sections_delta w sections).
Proof.
  intros Hr. unfold forEach, sections_delta.
  apply appends_forEach_simple. intros section i Hin.
  apply process_section_appends.
  unfold all_readable in Hr. rewrite forallb_forall in Hr. now apply Hr.
Qed.

Lemma rules_delta_output (w : World) (section : Section) :
  d_output (rules_delta w section) = rules_text w section.
Proof. unfold rules_delta, rules_text. now rewrite fold_delta_output. Qed.

Lemma sections_delta_output (w : World) (sections : list Section) :
  d_output (sections_delta w sections) = sections_text w sections.
Proof.
  unfold sections_delta, sections_text. rewrite fold_delta_output.
  f_equal. apply map_ext. intros section.
  unfold section_delta, section_text. simpl.
  now rewrite rules_delta_output, <- app_assoc.
Qed.

Lemma appends_block (label heading : str) (v : option str) :
  appends (match v with
           | Some group => emit heading ;;; emit (trim group ++ LFLF)
           | None => ret tt
           end)
          {| d_console := [];
             d_output := match v with
                         | Some group => heading ++ (trim group ++ LFLF)
                         | None => []
                         end;
             d_count := 0 |}.
Proof.
  destruct v as [group|].
  - eapply appends_eq; [apply appends_bind; apply appends_emit|reflexivity].
  - apply appends_ret.
Qed.

Lemma fold_delta_output_nil {A} (g : A -> Delta) (l : list A) :
  (forall x, d_output (g x) = []) ->
  d_output (fold_right delta_app delta_nil (map g l)) = [].
Proof.
  intros H. induction l as [|x l IH]; simpl; [reflexivity|].
  now rewrite H, IH.
Qed.

Lemma bind_get_processedRules {B} (k : nat -> M B) (s : St) :
  bind get_processedRules k s = k (processedRules s) s.
Proof. reflexivity. Qed.

Lemma bind_get_output {B} (k : str -> M B) (s : St) :
  bind get_output k s = k (output s) s.
Proof. reflexivity. Qed.

Lemma bind_writeFileSync {B} (w : World) (text : str) (k : unit -> M B) (s : St) :
  write_error w = None -> bind (writeFileSync w text) k s = k tt (written s text).
Proof. intros H. unfold bind, writeFileSync. now rewrite H. Qed.

Lemma extend_outfile (s : St) (d : Delta) : outfile (extend s d) = outfile s.
Proof. reflexivity. Qed.

Lemma extend_output (s : St) (d : Delta) : output (extend s d) = output s ++ d_output d.
Proof. reflexivity. Qed.

Lemma extend_console (s : St) (d : Delta) :
  console (extend s d) = console s ++ d_console d.
Proof. reflexivity. Qed.

Lemma extend_stderr (s : St) (d : Delta) : stderr (extend s d) = stderr s.
Proof. reflexivity. Qed.

Lemma has_segment_here {A} (pre seg : list A) : has_segment seg (pre ++ seg).
Proof. exists pre, []. now rewrite app_nil_r. Qed.

Lemma has_segment_app_r {A} (seg l e : list A) :
  has_segment seg l -> has_segment seg (l ++ e).
Proof.
  intros (before & after & ->). exists before, (after ++ e).
  now rewrite <- !app_assoc.
Qed.

Lemma has_segment_app_l {A} (seg l e : list A) :
  has_segment seg l -> has_segment seg (e ++ l).
Proof.
  intros (before & after & ->). exists (e ++ before), after.
  now rewrite <- !app_assoc.
Qed.

Lemma has_segment_refl {A} (seg : list A) : has_segment seg seg.
Proof. exists [], []. now rewrite app_nil_r. Qed.

Ltac find_segment :=
  lazymatch goal with
  | |- has_segment ?D (?l ++ ?r) =>
      first [ apply has_segment_app_r; find_segment
            | apply has_segment_app_l; find_segment ]
  | |- has_segment ?D ?E => constr_eq D E; apply has_segment_refl
  end.

Lemma has_segment_In {A} (seg l : list A) (x : A) :
  has_segment seg l -> In x seg -> In x l.
Proof.
  intros (before & after & ->) H. apply in_or_app. right.
  apply in_or_app. now left.
Qed.

(** The run of [buildAgentsMd] when SKILL.md can be read, no rule file raises
    when read and the output file can be written: what is added to the state
    before the file is written, and after. *)
Lemma buildAgentsMd_run (w : World) (text : str) :
  skill_file w = File text ->
  all_readable w (extract_sections (content (parseFrontmatter text))) = true ->
  write_error w = None ->
  exists before after,
    buildAgentsMd w initial
    = Ret tt (extend (written (extend initial before) (output (extend initial before)))
                     after)
    /\ d_output before = composed w text
    /\ has_segment
         (d_console (sections_delta w (extract_sections (content (parseFrontmatter text)))))
         (d_console before).
Proof.
  intros Hskill Hread Hwrite.
  unfold buildAgentsMd. rewrite Hskill.
  step (appends_log (LF :: [55357; 56960]%N ++ L " Building AGENTS.md...") cyan).
  step (appends_log bar cyan).
  rewrite bind_ret. cbv beta zeta.
  set (fm := frontmatter (parseFrontmatter text)).
  set (skillBody := content (parseFrontmatter text)).
  set (sections := extract_sections skillBody) in *.
  step (appends_log (check_mark ++ L " Read SKILL.md") green).
  step (appends_log (check_mark ++ L " Found " ++ decimal (length sections) ++ L " sections")
                    green).
  unfold forEach at 1.
  step (appends_forEach_simple
          (fun section (_ : nat) =>
             log (L "  " ++ bullet ++ L " " ++ title section ++ L ": "
                    ++ decimal (length (rules section)) ++ L " rules") blue)
          (fun section =>
             {| d_console := [colors blue
                                ++ (L "  " ++ bullet ++ L " " ++ title section ++ L ": "
                                      ++ decimal (length (rules section)) ++ L " rules")
                                ++ colors reset];
                d_output := []; d_count := 0 |})
          sections (fun x i _ => appends_log _ blue) 0).
  match goal with
  | |- context [log ?m green] => step (appends_log m green)
  end.
  step (appends_emit (L "---" ++ [LF])).
  unfold forEach at 1.
  step (appends_forEach_simple
          (fun kv (_ : nat) => emit (fst kv ++ L ": " ++ snd kv ++ [LF]))
          (fun kv => {| d_console := []; d_output := entry_line kv; d_count := 0 |})
          (entries fm) (fun x i _ => appends_emit _) 0).
  step (appends_emit (L "---" ++ LFLF)).
  match goal with |- context [bind (emit ?t)] => step (appends_emit t) end.
  match goal with |- context [bind (emit ?t)] => step (appends_emit t) end.
  step (appends_block (L "When to Apply") (L "## When to Apply" ++ [LF])
          (block_until_heading (L "When to Apply") skillBody)).
  match goal with |- context [bind (log ?m ?c)] => step (appends_log m c) end.
  step (appends_emit (generateTOC sections)).
  step (appends_emit (L "---" ++ LFLF)).
  match goal with |- context [bind (log ?m ?c)] => step (appends_log m c) end.
  step (process_sections_appends w sections Hread).
  rewrite bind_get_processedRules.
  match goal with |- context [bind (log ?m ?c)] => step (appends_log m c) end.
  step (appends_block (L "Quick Start") (L "## Quick Start" ++ LFLF)
          (block_until_heading (L "Quick Start") skillBody)).
  step (appends_block (L "References") (L "## References" ++ LFLF)
          (block_until_end (L "References") skillBody)).
  match goal with |- context [bind (emit ?t)] => step (appends_emit t) end.
  match goal with |- context [bind (emit ?t)] => step (appends_emit t) end.
  match goal with |- context [bind (emit ?t)] => step (appends_emit t) end.
  rewrite bind_get_output.
  rewrite (bind_writeFileSync _ _ _ _ Hwrite). cbv beta.
  do 5 (match goal with |- context [bind (log ?m ?c)] => step (appends_log m c) end).
  match goal with |- context [log ?m ?c ?s] => rewrite (appends_log m c s) end.
  rewrite !extend_app.
  eexists. eexists. split; [reflexivity|]. split.
  - cbn [d_output delta_app].
    unfold composed, frontmatter_block, title_block, when_block, quick_start_block,
      references_block, footer_block, separator.
    fold fm. fold skillBody. fold sections.
    rewrite sections_delta_output.
    rewrite fold_delta_output_nil by (intros; reflexivity).
    rewrite fold_delta_output.
    cbn [d_output]. rewrite <- !app_assoc. reflexivity.
  - cbn [d_console delta_app]. subst sections. subst skillBody.
    find_segment.
Qed.

Lemma buildAgentsMd_ok (w : World) (text : str) :
  skill_file w = File text ->
  all_readable w (extract_sections (content (parseFrontmatter text))) = true ->
  write_error w = None ->
  exists s,
    buildAgentsMd w initial = Ret tt s
    /\ outfile s = Some (composed w text)
    /\ stderr s = []
    /\ has_segment
         (d_console (sections_delta w (extract_sections (content (parseFrontmatter text)))))
         (console s).
Proof.
  intros Hskill Hread Hwrite.
  destruct (buildAgentsMd_run w Hskill Hread Hwrite) as (before & after & Hrun & Hout & Hseg).
  eexists. split; [exact Hrun|]. split; [|split].
  - cbn [outfile extend written output initial]. now rewrite <- Hout.
  - reflexivity.
  - cbn [console extend written initial]. apply has_segment_app_r. exact Hseg.
Qed.

(** ** Numbering in the composed document *)

Lemma toc_rules_spec (sectionNum : nat) (rules : list RuleRef) :
  forall toc i,
    toc_rules toc sectionNum rules i
    = toc ++ concat (map (fun jr => toc_rule_line sectionNum (fst jr) (snd jr))
                         (combine (seq (S i) (length rules)) rules)).
Proof.
  induction rules as [|rule rules IH]; intros toc i; cbn [toc_rules].
  - simpl. now rewrite app_nil_r.
  - rewrite IH. cbn [length seq combine map concat fst snd].
    unfold toc_rule_line at 2. rewrite Nat.add_1_r, <- !app_assoc. reflexivity.
Qed.

Lemma toc_sections_spec (sections : list Section) :
  forall toc i,
    toc_sections toc sections i
    = toc ++ concat (map (fun js => toc_entry (fst js) (snd js))
                         (combine (seq (S i) (length sections)) sections)).
Proof.
  induction sections as [|section sections IH]; intros toc i; cbn [toc_sections].
  - simpl. now rewrite app_nil_r.
  - cbv zeta. rewrite IH, toc_rules_spec.
    cbn [length seq combine map concat fst snd].
    unfold toc_entry at 2. unfold toc_section_line, numbered.
    rewrite Nat.add_1_r, <- !app_assoc. reflexivity.
Qed.

(** C1, as stated, fails: a heading line numbered 5 in the source is section
    1 in the table of contents and section 5 in the headings of the composed
    document. *)
Lemma section_headings_keep_the_authored_number :
  match outfile (fst (run renumbered_world)) with
  | Some text =>
      contains (L "1. [Foo](#foo)" ++ [LF] ++ L "   1.1. [My Rule](#my-rule)") text = true
      /\ contains ([LF] ++ L "## 5. Foo" ++ [LF]) text = true
      /\ contains ([LF] ++ L "## 1. Foo" ++ [LF]) text = false
      /\ contains ([LF] ++ L "### 5.1. My Rule" ++ [LF]) text = true
      /\ contains ([LF] ++ L "### 1.1. My Rule" ++ [LF]) text = false
  | None => False
  end.
Proof. vm_compute. repeat split. Qed.

(** C1, amended: the table of contents numbers the sections and their rules
    by position (1-based), whatever the heading lines of the source say; the
    section headings of the composed document carry the number captured from
    the source heading line, and the rule headings that captured number
    followed by the position of the rule in its section. *)
Theorem numbering_in_the_composed_document (w : World) (sections : list Section) :
  all_readable w sections = true ->
  generateTOC sections
  = L "## Table of Contents" ++ LFLF
      ++ concat (map (fun js => toc_entry (fst js) (snd js)) (numbered sections))
  /\ (forall s, exists s',
         forEach (process_section w) sections s = Ret tt s'
         /\ output s'
            = output s
                ++ concat (map (fun section =>
                                  (L "## " ++ number section ++ L ". " ++ title section ++ LFLF)
                                    ++ anchor_marker (anchor section)
                                    ++ concat (map (fun jr => rule_text w section (fst jr) (snd jr))
                                                   (numbered (rules section))))
                               sections))
  /\ (forall section j rule,
         readable w rule = true ->
         exists rest,
           rule_text w section j rule
           = (L "### " ++ number section ++ L "." ++ decimal j ++ L ". "
                ++ rule_title rule ++ LFLF) ++ rest).
Proof.
  intros Hr. split; [|split].
  - unfold generateTOC, numbered. rewrite toc_sections_spec.
    now rewrite <- !app_assoc.
  - intros s. eexists. split; [apply (process_sections_appends w sections Hr)|].
    rewrite extend_output, sections_delta_output. reflexivity.
  - intros section j rule Hrule. unfold readable in Hrule. unfold rule_text.
    destruct (rule_file w (file rule)) as [|text|message]; [| |discriminate].
    + eexists. unfold missing_rule_text, rule_heading_line. reflexivity.
    + eexists. unfold resolved_rule_text, rule_heading_line. reflexivity.
Qed.

Lemma numbering_in_the_composed_document_witness :
  generateTOC [sample_section]
  = L "## Table of Contents" ++ LFLF
      ++ concat (map (fun js => toc_entry (fst js) (snd js)) (numbered [sample_section])).
Proof.
  exact (proj1 (@numbering_in_the_composed_document (sample_world Absent)
                  [sample_section] eq_refl)).
Defined.

(** ** Missing rule files are not fatal *)

Lemma run_ok (w : World) (text : str) :
  skill_file w = File text ->
  all_readable w (sections_of text) = true ->
  write_error w = None ->
  snd (run w) = 0
  /\ outfile (fst (run w)) = Some (composed w text)
  /\ stderr (fst (run w)) = []
  /\ has_segment (d_console (sections_delta w (sections_of text))) (console (fst (run w))).
Proof.
  intros Hskill Hread Hwrite.
  destruct (buildAgentsMd_ok w Hskill Hread Hwrite) as (s & Hrun & Hout & Herr & Hseg).
  unfold run. rewrite Hrun. cbn [fst snd]. repeat split; assumption.
Qed.

Lemma rules_delta_console (w : World) (section : Section) :
  d_console (rules_delta w section) = concat (map (rule_log w) (rules section)).
Proof.
  unfold rules_delta, numbered. rewrite fold_delta_console.
  generalize 1. induction (rules section) as [|rule rules IH]; intros i; [reflexivity|].
  cbn [length seq combine map concat]. now rewrite IH.
Qed.

Lemma warning_logged (w : World) (sections : list Section) (section : Section)
    (rule : RuleRef) :
  In section sections -> In rule (rules section) ->
  rule_file w (file rule) = Absent ->
  In (warning_line (file rule)) (d_console (sections_delta w sections)).
Proof.
  intros Hs Hrule Habs. unfold sections_delta. rewrite fold_delta_console.
  apply in_concat. exists (d_console (section_delta w section)). split.
  - apply in_map_iff. exists section. now split.
  - unfold section_delta, delta_app. cbn [d_console app].
    rewrite rules_delta_console. apply in_concat.
    exists (rule_log w rule). split.
    + apply in_map_iff. exists rule. now split.
    + unfold rule_log. rewrite Habs. right. now left.
Qed.

Lemma composed_sections (w : World) (text : str) :
  has_segment (sections_text w (sections_of text)) (composed w text).
Proof.
  unfold composed, sections_of. cbv zeta.
  set (seg := sections_text w (extract_sections (content (parseFrontmatter text)))).
  find_segment.
Qed.

Lemma section_text_In (w : World) (sections : list Section) (section : Section) :
  In section sections ->
  has_segment (section_text w section) (sections_text w sections).
Proof.
  unfold sections_text. induction sections as [|x sections IH]; [contradiction|].
  intros [->|H]; cbn [map concat].
  - exists [], (concat (map (section_text w) sections)). reflexivity.
  - apply has_segment_app_l. now apply IH.
Qed.

(** C4: where SKILL.md is read, every referenced rule file is either missing
    or read, and the output file can be written, the resolver answers a
    missing file with [null] and a warning, without raising; the build exits
    with code 0 and has written the whole document, which holds the text of
    every section with every rule of it, a missing rule as its placeholder;
    and the console has the warning of every missing rule.  A build that
    exits with another code met a missing SKILL.md or an exception: a read of
    SKILL.md or of a rule file that raised, or a write that raised. *)
Theorem missing_rule_files_are_not_fatal (w : World) (text : str) :
  skill_file w = File text ->
  all_readable w (sections_of text) = true ->
  write_error w = None ->
  (forall rulePath s,
      rule_file w rulePath = Absent ->
      readRuleFile w rulePath s
      = Ret None (extend s {| d_console := [warning_line rulePath];
                              d_output := []; d_count := 0 |}))
  /\ snd (run w) = 0
  /\ outfile (fst (run w)) = Some (composed w text)
  /\ has_segment (sections_text w (sections_of text)) (composed w text)
  /\ (forall section,
         In section (sections_of text) ->
         has_segment (section_text w section) (sections_text w (sections_of text))
         /\ section_text w section
            = (L "## " ++ number section ++ L ". " ++ title section ++ LFLF)
                ++ anchor_marker (anchor section)
                ++ concat (map (fun jr => rule_text w section (fst jr) (snd jr))
                               (numbered (rules section))))
  /\ (forall section rule,
         In section (sections_of text) -> In rule (rules section) ->
         rule_file w (file rule) = Absent ->
         In (warning_line (file rule)) (console (fst (run w))))
  /\ (forall w',
         snd (run w') <> 0 ->
         skill_file w' = Absent
         \/ (exists message, skill_file w' = Unreadable message)
         \/ (exists text',
                skill_file w' = File text'
                /\ (all_readable w' (sections_of text') = false
                    \/ write_error w' <> None))).
Proof.
  intros Hskill Hread Hwrite.
  destruct (run_ok w Hskill Hread Hwrite) as (Hcode & Hout & _ & Hseg).
  split; [|split; [|split; [|split; [|split; [|split]]]]].
  - intros rulePath s Habs. unfold readRuleFile. rewrite Habs.
    rewrite (bind_appends _ _ (appends_log _ yellow)). reflexivity.
  - exact Hcode.
  - exact Hout.
  - apply composed_sections.
  - intros section Hin. split; [now apply section_text_In|reflexivity].
  - intros section rule Hs Hrule Habs.
    eapply has_segment_In; [exact Hseg|].
    eapply warning_logged; eassumption.
  - intros w' Hcode'.
    destruct (skill_file w') as [|text'|message] eqn:Hskill';
      [now left|right; right|right; left; now exists message].
    exists text'. split; [reflexivity|].
    destruct (all_readable w' (sections_of text')) eqn:Hread'; [|now left].
    right. intros Hwrite'.
    destruct (run_ok w' Hskill' Hread' Hwrite') as (Hzero & _). contradiction.
Qed.

Lemma missing_rule_files_are_not_fatal_witness :
  snd (run (sample_world Absent)) = 0
  /\ outfile (fst (run (sample_world Absent)))
     = Some (composed (sample_world Absent)
               (L "---" ++ [LF] ++ L "name: demo" ++ [LF] ++ L "---" ++ [LF]
                  ++ L "### 1. Example" ++ [LF] ++ L "[My Rule](rules/my-rule.md)" ++ [LF])).
Proof.
  pose proof (@missing_rule_files_are_not_fatal (sample_world Absent)
                (L "---" ++ [LF] ++ L "name: demo" ++ [LF] ++ L "---" ++ [LF]
                   ++ L "### 1. Example" ++ [LF] ++ L "[My Rule](rules/my-rule.md)" ++ [LF])
                eq_refl eq_refl eq_refl) as H.
  split; [exact (proj1 (proj2 H))|exact (proj1 (proj2 (proj2 H)))].
Defined.

Example absent_skill_file_exits_with_1 :
  forall w, skill_file w = Absent -> snd (run w) = 1 /\ outfile (fst (run w)) = None.
Proof.
  intros w H. unfold run, buildAgentsMd. rewrite H.
  rewrite (bind_appends _ _ (appends_log _ cyan)).
  rewrite (bind_appends _ _ (appends_log _ cyan)).
  rewrite bind_assoc. rewrite (bind_appends _ _ (appends_log _ red)).
  split; reflexivity.
Qed.

(** ** Frontmatter, from the source to the composed document *)

Lemma split_nonempty (sep : char) (s : str) : split sep s <> [].
Proof.
  destruct s as [|c s]; simpl; [discriminate|].
  destruct (char_eqb c sep); [discriminate|].
  destruct (split sep s); discriminate.
Qed.

(** [split] cuts at every colon, the first cut being the first colon. *)
Lemma split_cut (line : str) :
  split colon line
  = match cut_at_colon line with
    | Some (k, v) => k :: split colon v
    | None => [line]
    end.
Proof.
  induction line as [|c line IH]; [reflexivity|].
  cbn [split cut_at_colon]. destruct (char_eqb c colon); [reflexivity|].
  rewrite IH. destruct (cut_at_colon line) as [[k v]|]; reflexivity.
Qed.

Lemma join_cons (sep p : str) (rest : list str) :
  rest <> [] -> join sep (p :: rest) = p ++ sep ++ join sep rest.
Proof. destruct rest; [contradiction|reflexivity]. Qed.

(** Colons inside the value are preserved: joining what [split] cut gives the
    text back. *)
Lemma join_split (sep : char) (s : str) : join [sep] (split sep s) = s.
Proof.
  induction s as [|c s IH]; [reflexivity|].
  cbn [split]. pose proof (split_nonempty sep s) as Hne.
  destruct (char_eqb c sep) eqn:E.
  - apply N.eqb_eq in E. subst c.
    rewrite join_cons by assumption. now rewrite IH.
  - destruct (split sep s) as [|h t] eqn:Es; [contradiction|].
    destruct t as [|h' t].
    + cbn [join] in *. now rewrite IH.
    + rewrite join_cons in * by discriminate. now rewrite <- IH.
Qed.

Lemma parse_line_spec (fm : obj) (line : str) :
  parse_line fm line
  = match spec_pair line with
    | Some kv => set fm (fst kv) (snd kv)
    | None => fm
    end.
Proof.
  unfold parse_line, spec_pair. rewrite split_cut.
  destruct (cut_at_colon line) as [[k v]|].
  - pose proof (split_nonempty colon v) as Hne.
    pose proof (join_split colon v) as Hj.
    destruct (split colon v) as [|h t]; [contradiction|].
    destruct k as [|c k]; [reflexivity|].
    cbn [fst snd]. now rewrite Hj.
  - destruct line; reflexivity.
Qed.

Lemma fold_parse_line (lines : list str) :
  forall fm,
    fold_left parse_line lines fm
    = fold_left (fun o kv => set o (fst kv) (snd kv))
        (flat_map (fun line => match spec_pair line with
                               | Some kv => [kv]
                               | None => []
                               end) lines)
        fm.
Proof.
  induction lines as [|line lines IH]; intros fm; [reflexivity|].
  cbn [fold_left flat_map]. rewrite fold_left_app, IH, parse_line_spec.
  destruct (spec_pair line); reflexivity.
Qed.

Lemma fold_set_own (pairs : list (str * str)) :
  forall o,
    fold_left (fun o kv => set o (fst kv) (snd kv)) pairs o
    = fold_left set_own (filter not_proto pairs) o.
Proof.
  induction pairs as [|[k v] pairs IH]; intros o; [reflexivity|].
  cbn [fold_left filter]. rewrite IH. unfold not_proto, set at 1. cbn [fst snd].
  destruct (str_eqb k proto_key); reflexivity.
Qed.

Lemma has_key_app (k : str) (a b : list (str * str)) :
  has_key k (a ++ b) = has_key k a || has_key k b.
Proof. unfold has_key. apply existsb_app. Qed.

Lemma first_occurrences_snoc (pairs : list (str * str)) (k v : str) :
  forall earlier,
    first_occurrences earlier (pairs ++ [(k, v)])
    = first_occurrences earlier pairs
        ++ (if has_key k (earlier ++ pairs) then [] else [k]).
Proof.
  induction pairs as [|[k' v'] pairs IH]; intros earlier.
  - cbn [app first_occurrences]. rewrite app_nil_r.
    destruct (has_key k earlier); reflexivity.
  - cbn [app first_occurrences]. rewrite !IH, <- app_assoc. cbn [app].
    destruct (has_key k' earlier); reflexivity.
Qed.

Lemma last_value_snoc (pairs : list (str * str)) (k v k' : str) :
  last_value k' (pairs ++ [(k, v)])
  = if str_eqb k k' then Some v else last_value k' pairs.
Proof.
  induction pairs as [|[k0 v0] pairs IH]; cbn [app last_value].
  - reflexivity.
  - rewrite IH. destruct (str_eqb k k'); reflexivity.
Qed.

Lemma first_occurrences_In (pairs : list (str * str)) (k : str) :
  forall earlier,
    In k (first_occurrences earlier pairs) <->
    has_key k earlier = false /\ has_key k pairs = true.
Proof.
  induction pairs as [|[k' v'] pairs IH]; intros earlier; cbn [first_occurrences].
  - split; [contradiction|]. intros [_ H]. discriminate.
  - assert (Hk : has_key k ((k', v') :: pairs) = str_eqb k' k || has_key k pairs)
      by reflexivity.
    rewrite Hk.
    assert (He : has_key k (earlier ++ [(k', v')]) = has_key k earlier || str_eqb k' k).
    { rewrite has_key_app. unfold has_key at 2. cbn [existsb fst].
      now rewrite orb_false_r. }
    destruct (has_key k' earlier) eqn:E1.
    + rewrite IH, He. split.
      * intros [H1 H2]. apply orb_false_iff in H1. destruct H1 as [H1 H1'].
        split; [assumption|]. now rewrite H1'.
      * intros [H1 H2]. destruct (str_eqb k' k) eqn:E2.
        -- apply str_eqb_eq in E2. subst k'. congruence.
        -- rewrite H1. split; [reflexivity|assumption].
    + cbn [In]. rewrite IH, He. split.
      * intros [->|[H1 H2]].
        -- rewrite str_eqb_refl. now split.
        -- apply orb_false_iff in H1. destruct H1 as [H1 H1'].
           split; [assumption|]. now rewrite H1'.
      * intros [H1 H2]. destruct (str_eqb k' k) eqn:E2.
        -- apply str_eqb_eq in E2. now left.
        -- right. rewrite H1. split; [reflexivity|assumption].
Qed.

Lemma first_occurrences_NoDup (pairs : list (str * str)) :
  forall earlier, NoDup (first_occurrences earlier pairs).
Proof.
  induction pairs as [|[k v] pairs IH]; intros earlier; cbn [first_occurrences].
  - constructor.
  - destruct (has_key k earlier) eqn:E; [apply IH|].
    constructor; [|apply IH].
    intros H. apply first_occurrences_In in H. destruct H as [H _].
    rewrite has_key_app in H. apply orb_false_iff in H. destruct H as [_ H].
    unfold has_key in H. cbn [existsb fst] in H. now rewrite str_eqb_refl in H.
Qed.

Lemma has_own_map (f : str -> str) (ks : list str) (k : str) :
  has_own (map (fun k' => (k', f k')) ks) k = existsb (fun k' => str_eqb k' k) ks.
Proof. induction ks as [|k0 ks IH]; cbn; [reflexivity|]. now rewrite IH. Qed.

Lemma existsb_key_In (ks : list str) (k : str) :
  existsb (fun k' => str_eqb k' k) ks = true <-> In k ks.
Proof.
  rewrite existsb_exists. split.
  - intros (x & Hx & E). apply str_eqb_eq in E. now subst.
  - intros H. exists k. split; [assumption|apply str_eqb_refl].
Qed.

Lemma replace_value_map (f : str -> str) (ks : list str) (k v : str) :
  NoDup ks ->
  replace_value (map (fun k' => (k', f k')) ks) k v
  = map (fun k' => (k', if str_eqb k k' then v else f k')) ks.
Proof.
  induction ks as [|k0 ks IH]; intros Hnd; [reflexivity|].
  inversion Hnd as [|? ? Hnotin Hnd']; subst.
  cbn [map replace_value]. destruct (str_eqb k0 k) eqn:E.
  - apply str_eqb_eq in E. subst k0. rewrite str_eqb_refl. f_equal.
    apply map_ext_in. intros k' Hin.
    destruct (str_eqb k k') eqn:E'; [|reflexivity].
    apply str_eqb_eq in E'. subst k'. contradiction.
  - assert (E' : str_eqb k k0 = false).
    { apply str_eqb_neq. apply str_eqb_neq in E. congruence. }
    rewrite E'. f_equal. now apply IH.
Qed.

(** Assignments in source order leave one property for each key, at the place
    of the key's first assignment, with the value of its last. *)
Lemma fold_set_own_merged (pairs : list (str * str)) :
  fold_left set_own pairs [] = merged pairs.
Proof.
  induction pairs as [|[k v] pairs IH] using rev_ind; [reflexivity|].
  rewrite fold_left_app. cbn [fold_left]. rewrite IH.
  unfold set_own, merged. cbn [fst snd].
  rewrite has_own_map, first_occurrences_snoc. cbn [app].
  destruct (has_key k pairs) eqn:Hk.
  - assert (Hin : In k (first_occurrences [] pairs)).
    { apply first_occurrences_In. now split. }
    apply existsb_key_In in Hin. rewrite Hin, app_nil_r.
    rewrite replace_value_map by apply first_occurrences_NoDup.
    apply map_ext. intros k'. rewrite last_value_snoc.
    destruct (str_eqb k k'); reflexivity.
  - destruct (existsb (fun k' => str_eqb k' k) (first_occurrences [] pairs)) eqn:Hex.
    + apply existsb_key_In, first_occurrences_In in Hex. destruct Hex as [_ Hex].
      congruence.
    + rewrite map_app. cbn [map]. rewrite last_value_snoc, str_eqb_refl. f_equal.
      apply map_ext_in. intros k' Hin. rewrite last_value_snoc.
      destruct (str_eqb k k') eqn:E; [|reflexivity].
      apply str_eqb_eq in E. subst k'.
      apply first_occurrences_In in Hin. destruct Hin as [_ Hin]. congruence.
Qed.

Lemma parseFrontmatter_pairs (text ft : str) (len : nat) :
  frontmatterRegex_match text = Some (ft, len) ->
  frontmatter (parseFrontmatter text) = merged (filter not_proto (spec_pairs ft))
  /\ content (parseFrontmatter text) = skipn len text.
Proof.
  intros H. unfold parseFrontmatter. rewrite H. cbn [frontmatter content]. split.
  - rewrite fold_parse_line, fold_set_own. apply fold_set_own_merged.
  - reflexivity.
Qed.

Lemma merged_keys (pairs : list (str * str)) (kv : str * str) :
  In kv (merged pairs) -> has_key (fst kv) pairs = true.
Proof.
  unfold merged. intros H. apply in_map_iff in H. destruct H as (k & <- & H).
  apply first_occurrences_In in H. now destruct H.
Qed.

Lemma has_key_filter (k : str) (p : str * str -> bool) (pairs : list (str * str)) :
  has_key k (filter p pairs) = true -> has_key k pairs = true.
Proof.
  unfold has_key. rewrite !existsb_exists. intros (x & Hx & E).
  apply filter_In in Hx. exists x. now split.
Qed.

Lemma filter_none {A} (p : A -> bool) (l : list A) :
  (forall x, In x l -> p x = false) -> filter p l = [].
Proof.
  induction l as [|x l IH]; intros H; [reflexivity|].
  cbn [filter]. rewrite (H x) by now left. apply IH. intros y Hy. apply H. now right.
Qed.

Lemma filter_all {A} (p : A -> bool) (l : list A) :
  (forall x, In x l -> p x = true) -> filter p l = l.
Proof.
  induction l as [|x l IH]; intros H; [reflexivity|].
  cbn [filter]. rewrite (H x) by now left. f_equal. apply IH.
  intros y Hy. apply H. now right.
Qed.

(** Without an array index among the keys, [Object.entries] lists the
    properties in creation order. *)
Lemma entries_creation_order (o : obj) :
  existsb (fun kv => is_array_index (fst kv)) o = false -> entries o = o.
Proof.
  intros H. unfold entries.
  assert (F : forall kv, In kv o -> is_array_index (fst kv) = false).
  { intros kv Hin. destruct (is_array_index (fst kv)) eqn:E; [|reflexivity].
    assert (existsb (fun kv => is_array_index (fst kv)) o = true)
      by (apply existsb_exists; now exists kv).
    congruence. }
  rewrite filter_none by assumption.
  rewrite filter_all by (intros kv Hin; now rewrite F).
  reflexivity.
Qed.

Lemma has_key_In (k : str) (pairs : list (str * str)) :
  has_key k pairs = true -> exists v, In (k, v) pairs.
Proof.
  unfold has_key. rewrite existsb_exists. intros ([k' v] & Hin & E).
  apply str_eqb_eq in E. cbn [fst] in E. subst k'. now exists v.
Qed.

(** C7, as stated, fails: a key that is an array index is emitted before the
    keys that precede it in the source. *)
Lemma frontmatter_index_keys_come_first :
  spec_pairs (L "name: demo" ++ [LF] ++ L "1: one")
  = [(L "name", L "demo"); (L "1", L "one")]
  /\ match outfile (fst (run indexed_world)) with
     | Some text =>
         starts_with (L "---" ++ [LF] ++ L "1: one" ++ [LF] ++ L "name: demo" ++ [LF]
                        ++ L "---" ++ [LF]) text = true
         /\ starts_with (frontmatter_block [(L "name", L "demo"); (L "1", L "one")]) text
            = false
     | None => False
     end.
Proof. vm_compute. repeat split. Qed.

(** C7, amended: for a source document with a well-formed frontmatter block
    none of whose keys is an array index, the composed document starts with
    a frontmatter block that holds exactly the pairs of the source block, one
    line for each key in the order of first appearance: each line is cut at
    its first colon, key and value trimmed and the colons of the value kept;
    a line with no colon or with nothing before its first colon gives no
    pair, nor does the key [__proto__]; a key that appears again keeps its
    place and takes the later value. *)
Theorem frontmatter_round_trip (w : World) (text ft : str) (len : nat) :
  skill_file w = File text ->
  all_readable w (sections_of text) = true ->
  write_error w = None ->
  frontmatterRegex_match text = Some (ft, len) ->
  existsb (fun kv => is_array_index (fst kv)) (spec_pairs ft) = false ->
  frontmatter (parseFrontmatter text) = merged (filter not_proto (spec_pairs ft))
  /\ exists rest,
       outfile (fst (run w))
       = Some (frontmatter_block (merged (filter not_proto (spec_pairs ft))) ++ rest).
Proof.
  intros Hskill Hread Hwrite Hmatch Hidx.
  destruct (parseFrontmatter_pairs _ Hmatch) as [Hfm _].
  split; [exact Hfm|].
  destruct (run_ok w Hskill Hread Hwrite) as (_ & Hout & _).
  rewrite Hout. unfold composed. cbv zeta. rewrite Hfm.
  rewrite entries_creation_order.
  - eexists. reflexivity.
  - destruct (existsb (fun kv => is_array_index (fst kv))
                (merged (filter not_proto (spec_pairs ft)))) eqn:E; [|reflexivity].
    apply existsb_exists in E. destruct E as (kv & Hin & Hk).
    apply merged_keys, has_key_filter, has_key_In in Hin. destruct Hin as [v Hin].
    assert (existsb (fun kv => is_array_index (fst kv)) (spec_pairs ft) = true)
      by (apply existsb_exists; now exists (fst kv, v)).
    congruence.
Qed.

Lemma frontmatter_round_trip_witness :
  exists rest,
    outfile (fst (run (sample_world Absent)))
    = Some (frontmatter_block (merged (filter not_proto (spec_pairs (L "name: demo"))))
              ++ rest).
Proof.
  exact (proj2 (@frontmatter_round_trip (sample_world Absent)
                  (L "---" ++ [LF] ++ L "name: demo" ++ [LF] ++ L "---" ++ [LF]
                     ++ L "### 1. Example" ++ [LF] ++ L "[My Rule](rules/my-rule.md)" ++ [LF])
                  (L "name: demo") 19 eq_refl eq_refl eq_refl eq_refl eq_refl)).
Defined.

(** * Further properties of the two scripts *)

(** ** Anchors *)

(** X1: every code unit of an anchor is a small Basic Latin letter, a digit, an
    underscore or a hyphen: no capital, no white space, no punctuation. *)
Theorem anchor_alphabet (title : str) :
  Forall (fun c => is_anchor_char c = true /\ is_space c = false
                   /\ in_range 65 90 c = false)
         (createAnchor title).
Proof.
  pose proof (createAnchor_alphabet title) as H.
  eapply Forall_impl; [|exact H]. intros c Hc. cbv beta in Hc.
  destruct (anchor_char_fixed c Hc) as (_ & _ & Hs).
  repeat split; try assumption.
  unfold is_anchor_char, is_digit, in_range in Hc.
  assert (R : (97 <= c <= 122 \/ 48 <= c <= 57 \/ c = 95 \/ c = 45)%N).
  { repeat (apply orb_true_iff in Hc; destruct Hc as [Hc|Hc]);
      try (apply andb_true_iff in Hc; destruct Hc as [H1 H2];
           apply N.leb_le in H1; apply N.leb_le in H2; lia);
      apply N.eqb_eq in Hc; lia. }
  unfold in_range. destruct R as [R|[R|[R|R]]]; eval_atoms; reflexivity.
Qed.

(** ** The Frontmatter Parser *)

Lemma index_of_mismatch (x c : char) (p s : str) :
  char_eqb x c = false ->
  index_of (x :: p) (c :: s) = option_map S (index_of (x :: p) s).
Proof.
  intros H. cbn [index_of starts_with]. now rewrite H.
Qed.

(** X2: an empty block is not a frontmatter block: after the opening line, the
    closing line has to follow a line break of its own, so [---] directly
    under [---] closes nothing, and without a later closing line the text is
    returned whole. *)
Theorem empty_frontmatter_block_is_body (body : str) :
  contains fm_close (LF :: body) = false ->
  parseFrontmatter (fm_open ++ L "---" ++ [LF] ++ body)
  = {| frontmatter := []; content := fm_open ++ L "---" ++ [LF] ++ body |}.
Proof.
  intros H. unfold parseFrontmatter, frontmatterRegex_match.
  rewrite starts_with_app.
  rewrite skipn_app, skipn_all, Nat.sub_diag. cbn [app skipn].
  change (L "---" ++ LF :: body) with (45 :: 45 :: 45 :: LF :: body)%N.
  unfold fm_close in *. rewrite !index_of_mismatch by reflexivity.
  unfold contains in H. destruct (index_of _ (LF :: body)); [discriminate|].
  reflexivity.
Qed.

Lemma empty_frontmatter_block_is_body_witness :
  parseFrontmatter (fm_open ++ L "---" ++ [LF] ++ L "# Title")
  = {| frontmatter := []; content := fm_open ++ L "---" ++ [LF] ++ L "# Title" |}.
Proof.
  apply (@empty_frontmatter_block_is_body (L "# Title")). reflexivity.
Defined.








Lemma insert_by_index_perm (e : str * str) (l : list (str * str)) :
  Permutation (insert_by_index e l) (e :: l).
Proof.
  induction l as [|e' l IH]; cbn [insert_by_index]; [reflexivity|].
  destruct (N.leb _ _); [reflexivity|].
  rewrite IH. apply perm_swap.
Qed.

Lemma filter_partition_perm {A} (p : A -> bool) (l : list A) :
  Permutation (filter p l ++ filter (fun x => negb (p x)) l) l.
Proof.
  induction l as [|x l IH]; [reflexivity|].
  cbn [filter]. destruct (p x); cbn [negb app].
  - now constructor.
  - rewrite <- Permutation_middle. now constructor.
Qed.

Lemma entries_perm (o : obj) : Permutation (entries o) o.
Proof.
  unfold entries.
  rewrite <- (filter_partition_perm (fun kv => is_array_index (fst kv)) o) at 3.
  apply Permutation_app_tail.
  induction (filter (fun kv => is_array_index (fst kv)) o) as [|e l IH]; [reflexivity|].
  cbn [fold_right]. rewrite insert_by_index_perm. now constructor.
Qed.

(** X4: whatever the keys, the lines of the emitted frontmatter block are the
    parsed pairs, each once: array-index keys change the order, they lose
    and repeat nothing. *)
Theorem emitted_frontmatter_is_a_permutation (w : World) (text ft : str) (len : nat) :
  skill_file w = File text ->
  all_readable w (sections_of text) = true ->
  write_error w = None ->
  frontmatterRegex_match text = Some (ft, len) ->
  exists pairs rest,
    outfile (fst (run w)) = Some (frontmatter_block pairs ++ rest)
    /\ Permutation pairs (merged (filter not_proto (spec_pairs ft))).
Proof.
  intros Hskill Hread Hwrite Hmatch.
  destruct (parseFrontmatter_pairs _ Hmatch) as [Hfm _].
  destruct (run_ok w Hskill Hread Hwrite) as (_ & Hout & _).
  exists (entries (frontmatter (parseFrontmatter text))). eexists. split.
  - rewrite Hout. unfold composed. cbv zeta. reflexivity.
  - rewrite <- Hfm. apply entries_perm.
Qed.

Lemma emitted_frontmatter_is_a_permutation_witness :
  exists pairs rest,
    outfile (fst (run indexed_world)) = Some (frontmatter_block pairs ++ rest)
    /\ Permutation pairs
         (merged (filter not_proto (spec_pairs (L "name: demo" ++ [LF] ++ L "1: one")))).
Proof.
  apply (@emitted_frontmatter_is_a_permutation indexed_world
           (L "---" ++ [LF] ++ L "name: demo" ++ [LF] ++ L "1: one" ++ [LF]
              ++ L "---" ++ [LF] ++ L "body" ++ [LF])
           (L "name: demo" ++ [LF] ++ L "1: one") 26); reflexivity.
Defined.

(** ** The Section Splitter at the edges *)

Lemma sectionRegex_at_needs_marker (prev : option char) (s : str) :
  starts_with (L "### ") s = false -> sectionRegex_at prev s = None.
Proof. intros H. unfold sectionRegex_at. rewrite H. now rewrite andb_false_r. Qed.

Lemma matches_scan_without_marker (s : str) :
  forall prev pos,
    (forall j, starts_with (L "### ") (skipn j s) = false) ->
    matches_scan prev s pos = [].
Proof.
  induction s as [|c s IH]; intros prev pos H; cbn [matches_scan].
  - now rewrite (sectionRegex_at_needs_marker prev [] (H 0)).
  - rewrite (sectionRegex_at_needs_marker prev (c :: s) (H 0)). cbn [app].
    apply IH. intros j. exact (H (S j)).
Qed.

(** X5: a body in which the text [### ] does not occur has no sections, and the
    build of such a document reads no rule file: it exits with code 0 and
    writes the document whatever the rules directory holds. *)
Theorem no_heading_marker_no_sections (w : World) (text : str) :
  skill_file w = File text ->
  write_error w = None ->
  contains (L "### ") (content (parseFrontmatter text)) = false ->
  split_sections (content (parseFrontmatter text)) = []
  /\ snd (run w) = 0
  /\ outfile (fst (run w)) = Some (composed w text)
  /\ sections_text w (sections_of text) = [].
Proof.
  intros Hskill Hwrite Hno.
  assert (Hs : split_sections (content (parseFrontmatter text)) = []).
  { rewrite split_sections_build. unfold heading_lines.
    rewrite matches_scan_without_marker; [reflexivity|].
    unfold contains in Hno.
    destruct (index_of (L "### ") (content (parseFrontmatter text))) eqn:E;
      [discriminate|].
    now apply index_of_none. }
  assert (Hsec : sections_of text = []).
  { unfold sections_of, extract_sections. now rewrite Hs. }
  split; [exact Hs|].
  assert (Hread : all_readable w (sections_of text) = true) by now rewrite Hsec.
  destruct (run_ok w Hskill Hread Hwrite) as (Hcode & Hout & _).
  repeat split; try assumption. now rewrite Hsec.
Qed.

Lemma no_heading_marker_no_sections_witness :
  snd (run {| skill_file := File (L "# Title" ++ [LF] ++ L "[a](rules/a.md)");
              rule_file := fun _ => Unreadable (L "EISDIR");
              write_error := None;
              OUTPUT_FILE := L "AGENTS.md";
              now_iso := L "2026-01-01T00:00:00.000Z" |}) = 0.
Proof.
  exact (proj1 (proj2 (@no_heading_marker_no_sections
     {| skill_file := File (L "# Title" ++ [LF] ++ L "[a](rules/a.md)");
        rule_file := fun _ => Unreadable (L "EISDIR");
        write_error := None;
        OUTPUT_FILE := L "AGENTS.md";
        now_iso := L "2026-01-01T00:00:00.000Z" |}
     (L "# Title" ++ [LF] ++ L "[a](rules/a.md)") eq_refl eq_refl eq_refl))).
Defined.

(** ** The build without SKILL.md *)

(** X6: without SKILL.md the build prints its banner and the error line, exits
    with code 1 through [process.exit], and has written nothing; the [catch]
    of the script is not reached, so nothing goes to the error stream. *)
Theorem build_without_skill_file (w : World) :
  skill_file w = Absent ->
  snd (run w) = 1
  /\ outfile (fst (run w)) = None
  /\ stderr (fst (run w)) = []
  /\ console (fst (run w))
     = [colors cyan ++ (LF :: [55357; 56960]%N ++ L " Building AGENTS.md...") ++ colors reset;
        colors cyan ++ bar ++ colors reset;
        L "undefined" ++ (cross_mark ++ L " Error: SKILL.md not found") ++ colors reset].
Proof.
  intros H. unfold run, buildAgentsMd. rewrite H.
  rewrite (bind_appends _ _ (appends_log _ cyan)).
  rewrite (bind_appends _ _ (appends_log _ cyan)).
  rewrite bind_assoc. rewrite (bind_appends _ _ (appends_log _ red)).
  repeat split; reflexivity.
Qed.

Lemma build_without_skill_file_witness :
  snd (run world_without_skill) = 1 /\ outfile (fst (run world_without_skill)) = None.
Proof.
  pose proof (@build_without_skill_file world_without_skill eq_refl) as H.
  split; [exact (proj1 H)|exact (proj1 (proj2 H))].
Defined.

(** ** The Watch Driver when a watcher cannot be installed *)

(** X7: [fs.watch] raising is caught nowhere: the initial build has run, once,
    and no event rebuilds after it. *)
Theorem watch_without_watchers (env : WatchAgents.Env) (events : list WatchAgents.event) :
  watchers_fail env = true ->
  WatchAgents.executed (WatchAgents.drive env events) = [WatchAgents.build_command]
  /\ WatchAgents.drive env events = WatchAgents.startup env
  /\ exists message, WatchAgents.status (WatchAgents.drive env events)
                     = WatchAgents.Crashed message.
Proof.
  intros H.
  assert (Hs : exists message,
             WatchAgents.status (WatchAgents.startup env) = WatchAgents.Crashed message).
  { unfold watchers_fail in H. unfold WatchAgents.startup.
    destruct (WatchAgents.watch_skill_error env) as [m|]; [now exists m|].
    destruct (WatchAgents.watch_rules_error env) as [m|]; [now exists m|discriminate]. }
  destruct Hs as [message Hs].
  assert (Hd : WatchAgents.drive env events = WatchAgents.startup env).
  { unfold WatchAgents.drive. generalize dependent (WatchAgents.startup env).
    induction events as [|e events IH]; intros s Hs; [reflexivity|].
    cbn [fold_left]. unfold WatchAgents.handle at 2. rewrite Hs. now apply IH. }
  rewrite Hd. split; [apply WatchProps.startup_executed|].
  split; [reflexivity|now exists message].
Qed.

Lemma watch_without_watchers_witness :
  WatchAgents.executed (WatchAgents.drive unwatchable_env sample_events)
  = [WatchAgents.build_command].
Proof.
  exact (proj1 (@watch_without_watchers unwatchable_env sample_events eq_refl)).
Defined.

(** ** What the Section Splitter guarantees of each section *)

Lemma sectionRegex_at_match (prev : option char) (s num ttl : str) (len : nat) :
  sectionRegex_at prev s = Some (num, ttl, len) ->
  heading_match s num ttl /\ len = length (heading_line num ttl).
Proof.
  unfold sectionRegex_at.
  destruct (at_line_start prev && starts_with (L "### ") s) eqn:E1; [|discriminate].
  apply andb_true_iff in E1. destruct E1 as [_ E1].
  apply starts_with_split in E1. change (length (L "### ")) with 4 in E1.
  set (s1 := skipn 4 s) in *.
  set (n := take_while is_digit s1).
  set (s2 := skipn (length n) s1).
  destruct ((0 <? length n) && starts_with (L ". ") s2) eqn:E2; [|discriminate].
  apply andb_true_iff in E2. destruct E2 as [En E2].
  apply starts_with_split in E2. change (length (L ". ")) with 2 in E2.
  set (s3 := skipn 2 s2) in *.
  set (tt := take_while (fun c => negb (is_line_terminator c)) s3).
  destruct (0 <? length tt) eqn:E3; [|discriminate].
  intros [= <- <- <-].
  pose proof (take_while_split is_digit s1) as D1. fold n in D1. fold s2 in D1.
  pose proof (take_while_split (fun c => negb (is_line_terminator c)) s3) as D3.
  fold tt in D3.
  pose proof (take_while_Forall is_digit s1) as F1. fold n in F1.
  pose proof (take_while_Forall (fun c => negb (is_line_terminator c)) s3) as F3.
  fold tt in F3.
  apply Nat.ltb_lt in En. apply Nat.ltb_lt in E3.
  split; [split; [|split; [|split; [|split]]]|].
  - clearbody tt. clearbody s3. clearbody s2. clearbody n. clearbody s1.
    rewrite E1, D1, E2. rewrite D3 at 1.
    replace (L "### " ++ n ++ L ". " ++ tt ++ skipn (length tt) s3)
      with (heading_line n tt ++ skipn (length tt) s3)
      by (unfold heading_line; now rewrite <- !app_assoc).
    apply starts_with_app.
  - intros H. rewrite H in En. simpl in En. lia.
  - exact F1.
  - intros H. rewrite H in E3. simpl in E3. lia.
  - eapply Forall_impl; [|exact F3]. intros a Ha. cbv beta in Ha.
    now apply negb_true_iff in Ha.
  - unfold heading_line. rewrite !length_app.
    change (length (L "### ")) with 4. change (length (L ". ")) with 2. lia.
Qed.

Lemma sectionRegex_search_match (s : str) :
  forall prev pos m,
    sectionRegex_search prev s pos = Some m ->
    exists j,
      m_index m = pos + j
      /\ heading_match (skipn j s) (m_number m) (m_title m)
      /\ m_lastIndex m = m_index m + length (heading_line (m_number m) (m_title m)).
Proof.
  induction s as [|c s IH]; intros prev pos m; cbn [sectionRegex_search].
  - destruct (sectionRegex_at prev []) as [[[num ttl] len]|] eqn:E; [|discriminate].
    intros [= <-]. apply sectionRegex_at_match in E. destruct E as [E ->].
    exists 0. cbn [m_index m_number m_title m_lastIndex skipn].
    split; [lia|]. split; [assumption|reflexivity].
  - destruct (sectionRegex_at prev (c :: s)) as [[[num ttl] len]|] eqn:E.
    + intros [= <-]. apply sectionRegex_at_match in E. destruct E as [E ->].
      exists 0. cbn [m_index m_number m_title m_lastIndex skipn].
      split; [lia|]. split; [assumption|reflexivity].
    + intros H. destruct (IH _ _ _ H) as (j & Hj & Hm & Hlast).
      exists (S j). split; [lia|]. split; assumption.
Qed.

Lemma scan_at_lower_bound (body : str) (p : nat) :
  match scan_at body p with
  | [] => True
  | (j, _, _) :: _ => p <= j
  end.
Proof.
  unfold scan_at.
  pose proof (matches_scan_increasing (skipn p body)
                (match p with 0 => None | S i => nth_error body i end) p) as H.
  destruct (matches_scan _ (skipn p body) p) as [|[[j num] ttl] rest]; [exact I|].
  cbn [map increasing] in H. unfold position in H. cbn [fst] in H. lia.
Qed.

Lemma scan_at_spaced (body : str) (fuel : nat) :
  forall p, length (skipn p body) < fuel -> spaced body (scan_at body p).
Proof.
  induction fuel as [|fuel IH]; intros p Hfuel; [lia|].
  pose proof (sectionRegex_exec_spec body p) as H.
  destruct (sectionRegex_exec body p) as [m|] eqn:E.
  - destruct H as (Hidx & Hlast & Hscan). rewrite Hscan. cbn [spaced].
    unfold sectionRegex_exec in E.
    destruct (sectionRegex_search_match _ _ _ E) as (j & Hj & Hm & Hl).
    rewrite skipn_skipn in Hm. replace (j + p) with (m_index m) in Hm by lia.
    split; [exact Hm|]. split.
    + rewrite <- Hl. pose proof (scan_at_lower_bound body (m_lastIndex m)) as Hb.
      destruct (scan_at body (m_lastIndex m)) as [|[[j' num'] ttl'] rest]; [|exact Hb].
      rewrite length_skipn in Hlast. lia.
    + apply IH. rewrite length_skipn in *. lia.
  - rewrite H. exact I.
Qed.

Lemma starts_with_firstn (p s : str) (n : nat) :
  starts_with p s = true -> length p <= n -> starts_with p (firstn n s) = true.
Proof.
  revert s n; induction p as [|x p IH]; intros s n H Hn; [reflexivity|].
  destruct s as [|y s]; [discriminate|]. destruct n as [|n]; [simpl in Hn; lia|].
  cbn [firstn starts_with] in *. apply andb_true_iff in H. destruct H as [H1 H2].
  rewrite H1. cbn [andb]. apply IH; [assumption|simpl in Hn; lia].
Qed.

Lemma spaced_head_bound (body : str) (ms : list (nat * str * str)) :
  spaced body ms ->
  match ms with
  | [] => True
  | (i, num, ttl) :: _ => i + length (heading_line num ttl) <= length body
  end.
Proof.
  induction ms as [|[[i num] ttl] ms IH]; intros H; [exact I|].
  destruct H as (_ & Hend & Hrest). specialize (IH Hrest).
  destruct ms as [|[[j num'] ttl'] ms]; lia.
Qed.

Lemma build_sections_well_formed (body : str) (ms : list (nat * str * str)) :
  spaced body ms ->
  Forall (well_formed_section body) (build_sections ms (length body)).
Proof.
  induction ms as [|[[i num] ttl] ms IH]; intros H; cbn [build_sections];
    [constructor|].
  destruct H as ((Hs & Hn & Hd & Ht & Hl) & Hend & Hrest).
  constructor; [|now apply IH].
  unfold well_formed_section, span, slice.
  cbn [number title anchor startIndex endIndex rules].
  set (e := match ms with [] => length body | (j, _, _) :: _ => j end) in *.
  assert (He : e <= length body).
  { subst e. pose proof (spaced_head_bound _ _ Hrest) as Hb.
    destruct ms as [|[[j num'] ttl'] ms]; lia. }
  repeat split; try assumption; try reflexivity.
  apply starts_with_firstn; [assumption|lia].
Qed.

(** X8: every section the splitter returns starts, in the body, with its own
    heading line [### number. title]; its number is a non-empty run of
    digits, its title a non-empty text without line terminator, its anchor
    the anchor of the title, and its range ends within the body. *)
Theorem split_sections_well_formed (body : str) :
  Forall (well_formed_section body) (split_sections body).
Proof.
  rewrite split_sections_build. apply build_sections_well_formed.
  pose proof (@scan_at_spaced body (S (length body)) 0) as H.
  unfold scan_at in H. cbn [skipn] in H. apply H. lia.
Qed.

(** ** The blocks taken from the body by heading text *)





(** ** A frontmatter block read back *)

Lemma index_of_unfold (p s : str) :
  index_of p s
  = if starts_with p s then Some 0
    else match s with
         | [] => None
         | _ :: s' => option_map S (index_of p s')
         end.
Proof. destruct s; reflexivity. Qed.

Lemma index_of_app_first (p a b : str) :
  (forall j, j < length a -> starts_with p (skipn j (a ++ p ++ b)) = false) ->
  index_of p (a ++ p ++ b) = Some (length a).
Proof.
  induction a as [|c a IH]; intros H.
  - rewrite index_of_unfold. cbn [app]. now rewrite starts_with_app.
  - rewrite index_of_unfold.
    assert (H0 : starts_with p ((c :: a) ++ p ++ b) = false)
      by (apply (H 0); simpl; lia).
    rewrite H0. cbn [app].
    rewrite IH; [reflexivity|]. intros j Hj. apply (H (S j)). simpl. lia.
Qed.

Lemma starts_with_window (p s : str) :
  starts_with p s = starts_with p (firstn (length p) s).
Proof.
  revert s; induction p as [|x p IH]; intros s; [reflexivity|].
  destruct s as [|y s]; [reflexivity|].
  cbn [length firstn starts_with]. now rewrite <- IH.
Qed.

Lemma no_early_occurrence (p a b : str) :
  contains p (a ++ firstn (length p - 1) p) = false ->
  forall j, j < length a -> starts_with p (skipn j (a ++ p ++ b)) = false.
Proof.
  intros H j Hj. unfold contains in H.
  destruct (index_of p (a ++ firstn (length p - 1) p)) eqn:E; [discriminate|].
  pose proof (index_of_none _ _ E j) as Hn.
  rewrite starts_with_window. rewrite starts_with_window in Hn.
  rewrite <- Hn. f_equal.
  rewrite !skipn_app. replace (j - length a) with 0 by lia. cbn [skipn].
  rewrite !firstn_app.
  assert (Hl : length (skipn j a) = length a - j) by apply length_skipn.
  rewrite Hl. f_equal.
  rewrite firstn_firstn.
  replace (Nat.min (length p - (length a - j)) (length p - 1))
    with (length p - (length a - j)) by lia.
  replace (length p - (length a - j) - length p) with 0 by lia.
  cbn [firstn]. apply app_nil_r.
Qed.

Lemma skipn_three {A} (a b c d : list A) :
  skipn (length a + length b + length c) (a ++ b ++ c ++ d) = d.
Proof.
  rewrite !app_assoc, <- !length_app.
  rewrite skipn_app, skipn_all, Nat.sub_diag. reflexivity.
Qed.

(** X10: a document made of the opening line, a block that holds no closing line,
    the closing line and a body is parsed into the pairs of the block and
    exactly that body: nothing of the body is lost and none of the block is
    left in it. *)
Theorem parseFrontmatter_block_and_body (ft body : str) :
  contains fm_close (ft ++ LF :: L "---") = false ->
  parseFrontmatter (fm_open ++ ft ++ fm_close ++ body)
  = {| frontmatter := merged (filter not_proto (spec_pairs ft)); content := body |}.
Proof.
  intros H.
  assert (Hm : frontmatterRegex_match (fm_open ++ ft ++ fm_close ++ body)
               = Some (ft, length fm_open + length ft + length fm_close)).
  { unfold frontmatterRegex_match. rewrite starts_with_app.
    rewrite skipn_app, skipn_all, Nat.sub_diag. cbn [app skipn].
    rewrite index_of_app_first by (apply no_early_occurrence; exact H).
    rewrite firstn_app, firstn_all, Nat.sub_diag. cbn [firstn].
    now rewrite app_nil_r. }
  destruct (parseFrontmatter_pairs _ Hm) as [Hfm Hc].
  destruct (parseFrontmatter (fm_open ++ ft ++ fm_close ++ body)) as [fm c].
  cbn [frontmatter content] in *. subst fm c. f_equal.
  apply skipn_three.
Qed.

Lemma parseFrontmatter_block_and_body_witness :
  parseFrontmatter (fm_open ++ L "title: A: B" ++ fm_close ++ L "# Body")
  = {| frontmatter := merged (filter not_proto (spec_pairs (L "title: A: B")));
       content := L "# Body" |}.
Proof.
  apply (@parseFrontmatter_block_and_body (L "title: A: B") (L "# Body")).
  reflexivity.
Defined.

(** ** The Reference Extractor *)

Lemma ruleRegex_at_shape (s t f : str) (len : nat) :
  ruleRegex_at s = Some (t, f, len) ->
  valid_reference (t, f)
  /\ len = length (link_text t f)
  /\ exists rest, s = link_text t f ++ rest.
Proof.
  unfold ruleRegex_at. destruct s as [|c s1]; [discriminate|].
  destruct (N.eqb c 91) eqn:Ec; [|discriminate]. apply N.eqb_eq in Ec. subst c.
  set (tt := take_while (fun c => negb (N.eqb c 93)) s1).
  set (s2 := skipn (length tt) s1).
  destruct ((0 <? length tt) && starts_with (L "](rules/") s2) eqn:E1; [|discriminate].
  apply andb_true_iff in E1. destruct E1 as [Et E1]. apply Nat.ltb_lt in Et.
  apply starts_with_split in E1. change (length (L "](rules/")) with 8 in E1.
  set (s3 := skipn 8 s2) in *.
  set (ff := take_while (fun c => negb (N.eqb c 41)) s3).
  set (s4 := skipn (length ff) s3).
  destruct ((4 <=? length ff) && endsWith ff (L ".md") && starts_with (L ")") s4) eqn:E2;
    [|discriminate].
  apply andb_true_iff in E2. destruct E2 as [E2 E4].
  apply andb_true_iff in E2. destruct E2 as [Ef Emd]. apply Nat.leb_le in Ef.
  apply starts_with_split in E4.
  intros [= <- <- <-].
  pose proof (take_while_split (fun c => negb (N.eqb c 93)) s1) as D1.
  fold tt in D1. fold s2 in D1.
  pose proof (take_while_split (fun c => negb (N.eqb c 41)) s3) as D3.
  fold ff in D3. fold s4 in D3.
  pose proof (take_while_Forall (fun c => negb (N.eqb c 93)) s1) as F1. fold tt in F1.
  pose proof (take_while_Forall (fun c => negb (N.eqb c 41)) s3) as F3. fold ff in F3.
  split; [|split].
  - unfold valid_reference. cbn [fst snd]. repeat split; try assumption.
    + intros H. rewrite H in Et. simpl in Et. lia.
    + eapply Forall_impl; [|exact F1]. intros a Ha. now apply negb_true_iff in Ha.
    + eapply Forall_impl; [|exact F3]. intros a Ha. now apply negb_true_iff in Ha.
  - unfold link_text. rewrite !length_app.
    change (length (L "](rules/")) with 8. change (length (L ")")) with 1.
    simpl length. lia.
  - exists (skipn (length (L ")")) s4).
    clearbody s4. clearbody ff. clearbody s3. clearbody s2. clearbody tt.
    unfold link_text. rewrite <- !app_assoc. cbn [app]. f_equal.
    rewrite D1 at 1. f_equal. rewrite E1 at 1. f_equal. rewrite D3 at 1. f_equal.
    exact E4.
Qed.

Lemma ruleRegex_exec_shape (s : str) :
  forall t f rest,
    ruleRegex_exec s = Some (t, f, rest) ->
    valid_reference (t, f)
    /\ length rest < length s
    /\ exists pre, s = pre ++ link_text t f ++ rest.
Proof.
  induction s as [|c s IH]; intros t f rest; cbn [ruleRegex_exec].
  - destruct (ruleRegex_at []) as [[[t' f'] len]|] eqn:E; discriminate.
  - destruct (ruleRegex_at (c :: s)) as [[[t' f'] len]|] eqn:E.
    + intros [= <- <- <-].
      destruct (ruleRegex_at_shape _ E) as (Hv & Hlen & r & Hs).
      split; [exact Hv|]. rewrite Hs, Hlen.
      rewrite skipn_app, skipn_all, Nat.sub_diag. cbn [app skipn].
      split.
      * rewrite length_app. unfold link_text. rewrite length_app. simpl. lia.
      * now exists [].
    + intros H. destruct (IH _ _ _ H) as (Hv & Hlen & pre & Hs).
      split; [exact Hv|]. split; [simpl; lia|].
      exists (c :: pre). now rewrite Hs.
Qed.

Lemma extract_loop_sound (text : str) (fuel : nat) :
  forall s acc pre,
    text = pre ++ s ->
    Forall (fun tf => valid_reference tf
                      /\ contains (link_text (fst tf) (snd tf)) text = true) acc ->
    Forall (fun tf => valid_reference tf
                      /\ contains (link_text (fst tf) (snd tf)) text = true)
           (extract_loop fuel s acc).
Proof.
  induction fuel as [|fuel IH]; intros s acc pre Htext Hacc; [exact Hacc|].
  cbn [extract_loop].
  destruct (ruleRegex_exec s) as [[[t f] rest]|] eqn:E; [|exact Hacc].
  destruct (ruleRegex_exec_shape _ E) as (Hv & _ & pre' & Hs).
  apply (IH rest _ (pre ++ pre' ++ link_text t f)).
  - rewrite Htext, Hs. now rewrite <- !app_assoc.
  - apply Forall_app. split; [exact Hacc|]. constructor; [|constructor].
    split; [exact Hv|]. cbn [fst snd]. apply contains_occurs.
    exists (pre ++ pre'), rest. rewrite Htext, Hs. now rewrite <- !app_assoc.
Qed.

(** X11: every reference the extractor returns comes from a link of the text,
    [[title](rules/file)], whose title is not empty and holds no [\]] and
    whose file name holds no [)] and ends in [.md]. *)
Theorem extractRuleReferences_sound (text : str) :
  Forall (fun tf => valid_reference tf
                    /\ contains (link_text (fst tf) (snd tf)) text = true)
         (extractRuleReferences text).
Proof.
  unfold extractRuleReferences.
  apply (@extract_loop_sound text (S (length text)) text [] []);
    [reflexivity|constructor].
Qed.

Lemma extract_loop_fuel (n : nat) :
  forall s, length s <= n ->
  forall fuel1 fuel2 acc,
    length s < fuel1 -> length s < fuel2 ->
    extract_loop fuel1 s acc = acc ++ extract_loop fuel2 s [].
Proof.
  induction n as [|n IH]; intros s Hn fuel1 fuel2 acc H1 H2;
    (destruct fuel1 as [|fuel1]; [lia|]); (destruct fuel2 as [|fuel2]; [lia|]);
    cbn [extract_loop];
    (destruct (ruleRegex_exec s) as [[[t f] rest]|] eqn:E; [|now rewrite app_nil_r]);
    destruct (ruleRegex_exec_shape _ E) as (_ & Hlen & _).
  - lia.
  - rewrite (IH rest) with (fuel2 := S (length rest)) by lia.
    rewrite (IH rest) with (fuel1 := fuel2) (fuel2 := S (length rest)) by lia.
    now rewrite <- app_assoc.
Qed.

Lemma take_while_app_stop (p : char -> bool) (a b : str) :
  Forall (fun c => p c = true) a ->
  match b with [] => True | c :: _ => p c = false end ->
  take_while p (a ++ b) = a.
Proof.
  intros Ha Hb. induction Ha as [|x a Hx Ha IH]; cbn [app take_while].
  - destruct b as [|c b]; [reflexivity|]. cbn [take_while]. now rewrite Hb.
  - rewrite Hx. now rewrite IH.
Qed.

Lemma skipn_app_length {A} (a b : list A) : skipn (length a) (a ++ b) = b.
Proof. rewrite skipn_app, skipn_all, Nat.sub_diag. reflexivity. Qed.

Lemma ruleRegex_at_link (t f post : str) :
  valid_reference (t, f) ->
  ruleRegex_at (link_text t f ++ post) = Some (t, f, length (link_text t f)).
Proof.
  intros (Ht & Ft & Ff & Emd & Hlen). cbn [fst snd] in *.
  unfold link_text. rewrite <- !app_assoc. cbn [app ruleRegex_at N.eqb Pos.eqb].
  assert (E1 : take_while (fun c => negb (N.eqb c 93))
                 (t ++ L "](rules/" ++ f ++ L ")" ++ post) = t).
  { apply take_while_app_stop; [|reflexivity].
    eapply Forall_impl; [|exact Ft]. intros a Ha. cbv beta in *. now rewrite Ha. }
  rewrite E1. rewrite skipn_app_length. rewrite starts_with_app.
  assert (Et : (0 <? length t) = true).
  { apply Nat.ltb_lt. destruct t; [contradiction|simpl; lia]. }
  rewrite Et. cbn [andb].
  change 8 with (length (L "](rules/")). rewrite skipn_app_length.
  assert (E2 : take_while (fun c => negb (N.eqb c 41)) (f ++ L ")" ++ post) = f).
  { apply take_while_app_stop; [|reflexivity].
    eapply Forall_impl; [|exact Ff]. intros a Ha. cbv beta in *. now rewrite Ha. }
  rewrite E2. rewrite skipn_app_length. rewrite starts_with_app, Emd.
  apply Nat.leb_le in Hlen. rewrite Hlen. cbn [andb].
  do 2 f_equal. cbn [length]. rewrite !length_app.
  change (length (L "](rules/")) with 8. change (length (L ")")) with 1. lia.
Qed.

Lemma ruleRegex_exec_first_link (pre t f post : str) :
  existsb (N.eqb 91) pre = false ->
  valid_reference (t, f) ->
  ruleRegex_exec (pre ++ link_text t f ++ post) = Some (t, f, post).
Proof.
  intros Hpre Hv. induction pre as [|c pre IH].
  - cbn [app]. destruct (link_text t f ++ post) as [|x s] eqn:Es.
    + unfold link_text in Es. discriminate.
    + cbn [ruleRegex_exec]. rewrite <- Es, (ruleRegex_at_link post Hv).
      now rewrite skipn_app_length.
  - cbn [existsb] in Hpre. apply orb_false_iff in Hpre. destruct Hpre as [Hc Hpre].
    cbn [app ruleRegex_exec]. unfold ruleRegex_at at 1.
    rewrite N.eqb_sym, Hc. now apply IH.
Qed.

(** X12: a well-formed link that no [[] precedes is the first reference, and the
    references after it are those of the text that follows the link. *)
Theorem extractRuleReferences_first_link (pre t f post : str) :
  existsb (N.eqb 91) pre = false ->
  valid_reference (t, f) ->
  extractRuleReferences (pre ++ link_text t f ++ post)
  = (t, f) :: extractRuleReferences post.
Proof.
  intros Hpre Hv. unfold extractRuleReferences. cbn [extract_loop].
  rewrite (ruleRegex_exec_first_link _ _ Hpre Hv). cbn [app].
  rewrite (@extract_loop_fuel (length post) post (Nat.le_refl _) _ (S (length post)));
    [reflexivity| |lia].
  rewrite !length_app. unfold link_text. rewrite length_app. simpl. lia.
Qed.

Lemma extractRuleReferences_first_link_witness :
  extractRuleReferences
    (L "- " ++ link_text (L "User ID Best Practices") (L "tr-userid-best-practices.md")
       ++ L " - Choose user IDs")
  = (L "User ID Best Practices", L "tr-userid-best-practices.md")
      :: extractRuleReferences (L " - Choose user IDs").
Proof.
  apply (@extractRuleReferences_first_link (L "- ") (L "User ID Best Practices")
           (L "tr-userid-best-practices.md") (L " - Choose user IDs")).
  - reflexivity.
  - unfold valid_reference. cbn [fst snd].
    split; [discriminate|]. split; [repeat constructor|].
    split; [repeat constructor|]. split; [reflexivity|]. simpl. lia.
Defined.

(** ** The counter of processed rules *)

Lemma fold_delta_count {A} (g : A -> Delta) (l : list A) :
  d_count (fold_right delta_app delta_nil (map g l))
  = list_sum (map (fun x => d_count (g x)) l).
Proof. induction l as [|x l IH]; simpl; [reflexivity|]. now rewrite IH. Qed.

Lemma list_sum_head (a : nat) (l : list nat) : list_sum (a :: l) = a + list_sum l.
Proof. reflexivity. Qed.

Lemma sum_rule_count (w : World) (rules : list RuleRef) :
  forall i,
    list_sum (map (fun jr : nat * RuleRef => rule_count w (snd jr))
                  (combine (seq i (length rules)) rules))
    = length (filter (found w) rules).
Proof.
  induction rules as [|rule rules IH]; intros i; [reflexivity|].
  cbn [length seq combine map filter snd]. rewrite list_sum_head, IH.
  unfold rule_count, found. destruct (rule_file w (file rule)); reflexivity.
Qed.

Lemma rules_delta_count (w : World) (section : Section) :
  d_count (rules_delta w section) = length (filter (found w) (rules section)).
Proof.
  unfold rules_delta, numbered. rewrite fold_delta_count.
  rewrite <- (sum_rule_count w (rules section) 1). f_equal.
Qed.

(** X13: the rule loop counts the rules whose file was found and read, and only
    those: a missing rule is rendered but not counted. *)
Theorem processed_rules_are_the_found_ones (w : World) (sections : list Section) (s : St) :
  all_readable w sections = true ->
  exists s',
    forEach (process_section w) sections s = Ret tt s'
    /\ processedRules s'
       = processedRules s + length (filter (found w) (flat_map rules sections)).
Proof.
  intros Hr. eexists. split; [apply (process_sections_appends w sections Hr)|].
  unfold extend. cbn [processedRules]. f_equal.
  unfold sections_delta. rewrite fold_delta_count.
  clear Hr. induction sections as [|section sections IH]; [reflexivity|].
  cbn [map flat_map]. rewrite list_sum_head, filter_app, length_app, IH. f_equal.
  unfold section_delta, delta_app. cbn [d_count]. apply rules_delta_count.
Qed.

Lemma processed_rules_are_the_found_ones_witness :
  exists s',
    forEach (process_section (sample_world (File (L "Hello world."))))
            [sample_section] initial = Ret tt s'
    /\ processedRules s'
       = processedRules initial
         + length (filter (found (sample_world (File (L "Hello world."))))
                          (flat_map rules [sample_section])).
Proof.
  apply (@processed_rules_are_the_found_ones (sample_world (File (L "Hello world.")))
           [sample_section] initial).
  reflexivity.
Defined.

(** ** Exceptions *)




Lemma buildAgentsMd_until_sections (w : World) (text : str) :
  skill_file w = File text ->
  exists before (k : unit -> M unit),
    buildAgentsMd w initial
    = bind (forEach (process_section w)
              (extract_sections (content (parseFrontmatter text))))
           k (extend initial before).
Proof.
  intros Hskill.
  unfold buildAgentsMd. rewrite Hskill.
  step (appends_log (LF :: [55357; 56960]%N ++ L " Building AGENTS.md...") cyan).
  step (appends_log bar cyan).
  rewrite bind_ret. cbv beta zeta.
  set (fm := frontmatter (parseFrontmatter text)).
  set (skillBody := content (parseFrontmatter text)).
  set (sections := extract_sections skillBody) in *.
  step (appends_log (check_mark ++ L " Read SKILL.md") green).
  step (appends_log (check_mark ++ L " Found " ++ decimal (length sections) ++ L " sections")
                    green).
  unfold forEach at 1.
  step (appends_forEach_simple
          (fun section (_ : nat) =>
             log (L "  " ++ bullet ++ L " " ++ title section ++ L ": "
                    ++ decimal (length (rules section)) ++ L " rules") blue)
          (fun section =>
             {| d_console := [colors blue
                                ++ (L "  " ++ bullet ++ L " " ++ title section ++ L ": "
                                      ++ decimal (length (rules section)) ++ L " rules")
                                ++ colors reset];
                d_output := []; d_count := 0 |})
          sections (fun x i _ => appends_log _ blue) 0).
  match goal with
  | |- context [log ?m green] => step (appends_log m green)
  end.
  step (appends_emit (L "---" ++ [LF])).
  unfold forEach at 1.
  step (appends_forEach_simple
          (fun kv (_ : nat) => emit (fst kv ++ L ": " ++ snd kv ++ [LF]))
          (fun kv => {| d_console := []; d_output := entry_line kv; d_count := 0 |})
          (entries fm) (fun x i _ => appends_emit _) 0).
  step (appends_emit (L "---" ++ LFLF)).
  match goal with |- context [bind (emit ?t)] => step (appends_emit t) end.
  match goal with |- context [bind (emit ?t)] => step (appends_emit t) end.
  step (appends_block (L "When to Apply") (L "## When to Apply" ++ [LF])
          (block_until_heading (L "When to Apply") skillBody)).
  match goal with |- context [bind (log ?m ?c)] => step (appends_log m c) end.
  step (appends_emit (generateTOC sections)).
  step (appends_emit (L "---" ++ LFLF)).
  match goal with |- context [bind (log ?m ?c)] => step (appends_log m c) end.
  rewrite !extend_app. eexists. eexists. reflexivity.
Qed.

Lemma process_rule_raises (w : World) (section : Section) (rule : RuleRef)
    (ruleIndex : nat) (message : str) (s : St) :
  rule_file w (file rule) = Unreadable message ->
  exists s',
    process_rule w section rule ruleIndex s = Raise (Thrown message) s'
    /\ outfile s' = outfile s /\ stderr s' = stderr s.
Proof.
  intros H. unfold process_rule, readRuleFile. rewrite H.
  rewrite (bind_appends _ _ (appends_log _ blue)).
  eexists. split; [reflexivity|]. split; reflexivity.
Qed.

Lemma rules_error_none (w : World) (rules : list RuleRef) :
  rules_error w rules = None -> forallb (readable w) rules = true.
Proof.
  induction rules as [|rule rules IH]; [reflexivity|].
  cbn [rules_error forallb]. unfold readable at 1.
  destruct (rule_file w (file rule)); [assumption|assumption|discriminate].
Qed.

Lemma rules_raise (w : World) (section : Section) (rules : list RuleRef)
    (message : str) :
  rules_error w rules = Some message ->
  forall i s, exists s',
    forEach_from (process_rule w section) rules i s = Raise (Thrown message) s'
    /\ outfile s' = outfile s /\ stderr s' = stderr s.
Proof.
  induction rules as [|rule rules IH]; [discriminate|].
  cbn [rules_error forEach_from]. intros H i s.
  destruct (rule_file w (file rule)) as [|text|m] eqn:E.
  - assert (Hr : readable w rule = true) by (unfold readable; now rewrite E).
    rewrite (bind_appends _ _ (@process_rule_appends w section rule i Hr)).
    destruct (IH H (S i) (extend s (rule_delta w section (S i) rule)))
      as (s' & Hs' & Ho & He).
    exists s'. repeat split; assumption.
  - assert (Hr : readable w rule = true) by (unfold readable; now rewrite E).
    rewrite (bind_appends _ _ (@process_rule_appends w section rule i Hr)).
    destruct (IH H (S i) (extend s (rule_delta w section (S i) rule)))
      as (s' & Hs' & Ho & He).
    exists s'. repeat split; assumption.
  - injection H as <-.
    destruct (@process_rule_raises w section rule i m s E) as (s' & Hs' & Ho & He).
    exists s'. split; [|split; assumption].
    unfold bind. now rewrite Hs'.
Qed.

Lemma sections_raise (w : World) (sections : list Section) (message : str) :
  first_error w sections = Some message ->
  forall i s, exists s',
    forEach_from (process_section w) sections i s = Raise (Thrown message) s'
    /\ outfile s' = outfile s /\ stderr s' = stderr s.
Proof.
  induction sections as [|section sections IH]; [discriminate|].
  cbn [first_error forEach_from]. intros H i s.
  destruct (rules_error w (rules section)) as [m|] eqn:E.
  - injection H as <-. unfold process_section.
    rewrite bind_assoc. rewrite (bind_appends _ _ (appends_emit _)). cbv beta.
    rewrite bind_assoc. rewrite (bind_appends _ _ (appends_emit _)). cbv beta.
    unfold bind at 1. unfold forEach.
    match goal with
    | |- context [forEach_from _ _ 0 ?s0] =>
        destruct (@rules_raise w section (rules section) m E 0 s0) as (s' & Hs' & Ho & He)
    end.
    exists s'. split; [|split; assumption].
    now rewrite Hs'.
  - rewrite (bind_appends _ _
               (@process_section_appends w section i (rules_error_none _ _ E))).
    destruct (IH H (S i) (extend s (section_delta w section))) as (s' & Hs' & Ho & He).
    exists s'. repeat split; assumption.
Qed.

(** X15: when the read of a referenced rule file raises, the build stops at the
    first such rule: it exits with code 1 with the message of that error on
    the error stream, and no output file has been written, not even in
    part. *)
Theorem unreadable_rule_exits_with_1 (w : World) (text message : str) :
  skill_file w = File text ->
  first_error w (sections_of text) = Some message ->
  snd (run w) = 1
  /\ outfile (fst (run w)) = None
  /\ stderr (fst (run w)) = [message].
Proof.
  intros Hskill Herr.
  destruct (buildAgentsMd_until_sections w Hskill) as (before & k & Hb).
  destruct (@sections_raise w (sections_of text) message Herr 0 (extend initial before))
    as (s' & Hs' & Ho & He).
  assert (Hrun : buildAgentsMd w initial = Raise (Thrown message) s').
  { rewrite Hb. unfold bind, forEach. unfold sections_of in Hs'. now rewrite Hs'. }
  unfold run. rewrite Hrun.
  cbn [log fst snd outfile stderr]. rewrite Ho, He.
  repeat split.
Qed.

Lemma unreadable_rule_exits_with_1_witness :
  snd (run (sample_world (Unreadable (L "EISDIR")))) = 1
  /\ outfile (fst (run (sample_world (Unreadable (L "EISDIR"))))) = None
  /\ stderr (fst (run (sample_world (Unreadable (L "EISDIR"))))) = [L "EISDIR"].
Proof.
  apply (@unreadable_rule_exits_with_1 (sample_world (Unreadable (L "EISDIR")))
           (L "---" ++ [LF] ++ L "name: demo" ++ [LF] ++ L "---" ++ [LF]
              ++ L "### 1. Example" ++ [LF] ++ L "[My Rule](rules/my-rule.md)" ++ [LF])
           (L "EISDIR")); reflexivity.
Defined.

(** ** The Watch Driver through failed builds *)

(** X16: once the watchers are installed, no build outcome ends the watch: after
    any sequence of events the driver is watching, whether the child
    processes succeeded or failed; a rebuild prints its announcement, and the
    failure line exactly when the child failed. *)
Theorem watch_survives_failed_builds
    (env : WatchAgents.Env) (events : list WatchAgents.event) :
  watchers_fail env = false ->
  WatchAgents.status (WatchAgents.drive env events) = WatchAgents.Watching
  /\ forall s, exists line,
       WatchAgents.console (WatchAgents.rebuild env s)
       = WatchAgents.console s
           ++ line :: (if WatchAgents.child_ok env (length (WatchAgents.executed s))
                            WatchAgents.build_command
                       then [] else [build_failed_line]).
Proof.
  intros H. split.
  - unfold WatchAgents.drive. rewrite WatchProps.fold_handle_status.
    unfold watchers_fail in H.
    destruct (WatchAgents.watch_skill_error env) eqn:E1; [discriminate|].
    destruct (WatchAgents.watch_rules_error env) eqn:E2; [discriminate|].
    now apply WatchProps.startup_status.
  - intros s. unfold WatchAgents.rebuild.
    destruct (WatchAgents.child_ok env _ _).
    + eexists. cbn [WatchAgents.console WatchAgents.log]. reflexivity.
    + eexists. cbn [WatchAgents.console WatchAgents.log].
      rewrite <- app_assoc. reflexivity.
Qed.

Lemma watch_survives_failed_builds_witness :
  WatchAgents.status (WatchAgents.drive committed_env sample_events)
  = WatchAgents.Watching.
Proof.
  exact (proj1 (@watch_survives_failed_builds committed_env sample_events eq_refl)).
Defined.

(** ** A frontmatter line written and read back *)

Lemma cut_at_colon_first (k rest : str) :
  existsb (N.eqb colon) k = false ->
  cut_at_colon (k ++ colon :: rest) = Some (k, rest).
Proof.
  induction k as [|c k IH]; intros H.
  - cbn [app cut_at_colon]. unfold char_eqb. now rewrite N.eqb_refl.
  - cbn [existsb] in H. apply orb_false_iff in H. destruct H as [Hc H].
    cbn [app cut_at_colon]. unfold char_eqb. rewrite N.eqb_sym, Hc.
    now rewrite IH.
Qed.

(** X17: the line the composer writes for a pair, [key: value], is read by the
    parser as that pair again, when the key is not empty, has no colon and
    is not [__proto__], and key and value are trimmed, as parsed ones are. *)
Theorem frontmatter_line_round_trip (fm : obj) (k v : str) :
  k <> [] ->
  existsb (N.eqb colon) k = false ->
  str_eqb k proto_key = false ->
  trim k = k -> trim v = v ->
  parse_line fm (k ++ L ": " ++ v) = set fm k v
  /\ (has_own fm k = false -> parse_line fm (k ++ L ": " ++ v) = fm ++ [(k, v)])
  /\ get (parse_line [] (k ++ L ": " ++ v)) k = Some v.
Proof.
  intros Hk Hcolon Hproto Htk Htv.
  assert (Hp : parse_line fm (k ++ L ": " ++ v) = set fm k v).
  { rewrite parse_line_spec. unfold spec_pair.
    change (L ": " ++ v) with (colon :: 32%N :: v).
    rewrite cut_at_colon_first by assumption.
    destruct k as [|c k]; [contradiction|].
    cbn [fst snd]. rewrite Htk.
    assert (Hv : trim (32%N :: v) = trim v) by reflexivity.
    now rewrite Hv, Htv. }
  split; [exact Hp|]. split.
  - intros Hown. rewrite Hp. unfold set. now rewrite Hproto, Hown.
  - rewrite parse_line_spec. unfold spec_pair.
    change (L ": " ++ v) with (colon :: 32%N :: v).
    rewrite cut_at_colon_first by assumption.
    destruct k as [|c k]; [contradiction|].
    cbn [fst snd]. rewrite Htk.
    assert (Hv : trim (32%N :: v) = trim v) by reflexivity.
    rewrite Hv, Htv. unfold set. rewrite Hproto. cbn [has_own app get].
    now rewrite str_eqb_refl.
Qed.

Lemma frontmatter_line_round_trip_witness :
  get (parse_line [] (L "description" ++ L ": " ++ L "Tools: fast, safe")) (L "description")
  = Some (L "Tools: fast, safe").
Proof.
  refine (proj2 (proj2 (@frontmatter_line_round_trip [] (L "description")
                          (L "Tools: fast, safe") _ eq_refl eq_refl eq_refl eq_refl))).
  discriminate.
Defined.
